(** * PetriNetSimulator: the client-side execution and analysis engine

    A shallow embedding of the parts of the React front end that carry the
    engine's semantics:

    - [AnalysisPanel.jsx]: [localAnalyze], the handling of the
      [/analyze/state] answer, [placeVerdicts], the [k] of the request of
      [runKBounded], [totalTokens];
    - [App.jsx]: [computeEnabled], [enabledAtTokens], the history recorder
      ([ensureHistoryInit], [appendHistory], [applyStep], [goTo], the four
      step buttons, [clearHistory]), [fire], the Step and Run buttons and
      the auto-run tick, the editing handlers ([addPlace],
      [addTransition], [updateSelected], [deleteById], the Delete key,
      [onConnect], [handleNodeClick]), the net mapping ([toNet],
      [getMarking], [fromNet], [normalizeCounter], the reference check of
      [handleImportPNML]), what [PlaceNode] and the TikZ export show for
      the tokens of a place, and the escaping functions [esc] and
      [escTex].

    Conventions of the model.
    - A JS object used as a dictionary is the [gmap string _] of its own
      entries.  A read [o[k]] at a key that is no own entry finds the
      member of that name inherited from [Object.prototype], if there is
      one ([readKey]).  [computeEnabledJs], [enabledAtTokensJs] and
      [localAnalyzeJs] embed the three functions with every read done in
      this way, so that they fail where the source throws a TypeError.
      [computeEnabled], [enabledAtTokens] and [localAnalyze] are the same
      functions with every read taken as a read of an own entry: they give
      the value returned whenever no transition id is an inherited member
      name and no arc of weight zero or less starts at one
      ([computeEnabledJs_plain], [enabledAtTokensJs_plain],
      [localAnalyzeJs_plain]).
    - Token counts and arc weights are integers ([Z]); a field that may be
      [undefined] is an [option], and [x ?? d] is [default d x].
    - React state is one record; a handler is a function on that record.
      The [useEffect] that copies [hIndex] into [hIndexRef] after a render
      is the explicit step [commit].
    - Rendering-only fields (positions, arrow heads, edge labels) are left
      out. *)

From stdpp Require Import gmap strings list fin_maps pretty.
From Stdlib Require Import ZArith QArith Lia Ascii.

Local Open Scope string_scope.
Local Open Scope list_scope.
Local Open Scope Z_scope.

(** ** JavaScript numbers, as far as comparisons see them *)

Module Js.

(** A JS number is a finite double, NaN or an infinity.  Finite doubles are
    rationals and compare as such. *)
Inductive num : Type :=
| Num (q : Q)
| NaN
| PosInf
| NegInf.

(** [Number.isFinite] *)
Definition isFinite (x : num) : bool :=
  match x with Num _ => true | _ => false end.

(** [a <= b]; every comparison with NaN is false. *)
Definition le (a b : num) : bool :=
  match a, b with
  | NaN, _ | _, NaN => false
  | NegInf, _ => true
  | _, PosInf => true
  | Num x, Num y => Qle_bool x y
  | Num _, NegInf => false
  | PosInf, _ => false
  end.

(** [a > b] *)
Definition gt (a b : num) : bool :=
  match a, b with
  | NaN, _ | _, NaN => false
  | PosInf, PosInf => false
  | PosInf, _ => true
  | _, PosInf => false
  | NegInf, _ => false
  | Num _, NegInf => true
  | Num x, Num y => negb (Qle_bool x y)
  end.

End Js.

(** [Object.fromEntries]: a later entry with the same key replaces an
    earlier one. *)
Definition fromEntries {V : Type} (entries : list (string * V))
  : gmap string V :=
  foldl (fun m kv => <[kv.1 := kv.2]> m) ∅ entries.

(** ** Reads of an object used as a dictionary *)

(** The member names that an object literal, and an object built by
    [Object.fromEntries], inherits from [Object.prototype]. *)
Definition objectPrototypeMembers : list string :=
  [ "constructor"; "hasOwnProperty"; "isPrototypeOf"; "propertyIsEnumerable";
    "toLocaleString"; "toString"; "valueOf"; "__proto__";
    "__defineGetter__"; "__defineSetter__";
    "__lookupGetter__"; "__lookupSetter__" ].

Definition inherited (k : string) : bool :=
  bool_decide (k ∈ objectPrototypeMembers).

(** What a read [o[k]] finds: an entry of the object itself; else the member
    of that name inherited from the prototype, which is a function or, for
    [__proto__], the prototype object (truthy, not nullish, no string and no
    array, [NaN] when compared as a number); else [undefined]. *)
Inductive Found (V : Type) : Type :=
| Own (v : V)
| Member
| Undefined.

Arguments Own {V} v.
Arguments Member {V}.
Arguments Undefined {V}.

Definition readKey {V : Type} (o : gmap string V) (k : string) : Found V :=
  match o !! k with
  | Some v => Own v
  | None => if inherited k then Member else Undefined
  end.

(** [o[k] === ty] on a dictionary of strings. *)
Definition typeIs (o : gmap string string) (k ty : string) : bool :=
  match readKey o k with
  | Own ty' => String.eqb ty' ty
  | Member | Undefined => false
  end.

(** [(inArcs[key] ||= []).push(a)].  An own bucket is an array and gets the
    arc; a missing bucket is created.  An inherited member is truthy, so
    [||=] keeps it, and it has no [push]: the call throws a TypeError
    ([None]). *)
Definition pushArcJs {A : Type} (inArcs : gmap string (list A)) (key : string)
  (a : A) : option (gmap string (list A)) :=
  match readKey inArcs key with
  | Own bucket => Some (<[key := bucket ++ [a]]> inArcs)
  | Undefined => Some (<[key := [a]]> inArcs)
  | Member => None
  end.

(** [(inArcs[key] || [])], the receiver of [.every]: an inherited member is
    kept by [||] and has no [every], a TypeError ([None]). *)
Definition bucketJs {A : Type} (inArcs : gmap string (list A)) (key : string)
  : option (list A) :=
  match readKey inArcs key with
  | Own bucket => Some bucket
  | Undefined => Some []
  | Member => None
  end.

(** [(tokens[p] ?? 0) >= w]: an inherited member is not nullish, so [??]
    keeps it, and the comparison with a number is false. *)
Definition enoughJs (tokens : gmap string Z) (p : string) (w : Z) : bool :=
  match readKey tokens p with
  | Own v => v >=? w
  | Undefined => 0 >=? w
  | Member => false
  end.

(** [Array.prototype.filter] with a callback that may throw: the first throw
    ends the call. *)
Fixpoint filterJs {A : Type} (p : A → option bool) (l : list A)
  : option (list A) :=
  match l with
  | [] => Some []
  | x :: rest =>
      keep ← p x;
      kept ← filterJs p rest;
      Some (if keep : bool then x :: kept else kept)
  end.

(** ** AnalysisPanel.jsx: per-place verdicts *)

Inductive Verdict : Type := Yes | No | Unknown | Dash.

(** The [hint] text is a template around [maxSeen]; only its shape is kept. *)
Inductive HintText : Type :=
| MaxSeenText (maxSeen : Q)
| MinBoundText (maxSeen : Q).

(** The answer of [/analyze/kbounded], restricted to what [placeVerdicts]
    reads: [place_max] in [Object.entries] order, and [hit_limits]. *)
Record KResult : Type := {
  place_max : list (string * Q);
  hit_limits : bool
}.

Record PlaceVerdict : Type := {
  pid : string;
  verdict : Verdict;
  hint : HintText
}.

(** The callback of [entries.map] in [placeVerdicts]. *)
Definition placeVerdict (k : Js.num) (hit : bool) (entry : string * Q)
  : PlaceVerdict :=
  let '(p, maxSeen) := entry in
  if negb (Js.isFinite k) then
    {| pid := p; verdict := Dash; hint := MaxSeenText maxSeen |}
  else if negb hit then
    {| pid := p;
       verdict := if Js.le (Js.Num maxSeen) k then Yes else No;
       hint := MaxSeenText maxSeen |}
  else
    {| pid := p;
       verdict := if Js.gt (Js.Num maxSeen) k then No else Unknown;
       hint := MinBoundText maxSeen |}.

(** [placeVerdicts]: [kResult] is [null] until a check has run; [k] is
    [Number(kInput)]. *)
Definition placeVerdicts (kResult : option KResult) (k : Js.num)
  : list PlaceVerdict :=
  match kResult with
  | None => []
  | Some r => map (placeVerdict k (hit_limits r)) (place_max r)
  end.

(** ** App.jsx: nodes, edges and the local enabled computation *)

(** The [data] object of a node or an edge; each member may be absent. *)
Record Data : Type := {
  label : option string;
  tokens : option Z;
  weight : option Z
}.

Record Node : Type := {
  n_id : string;
  n_type : string;
  n_data : option Data
}.

Record Edge : Type := {
  e_id : string;
  source : string;
  target : string;
  e_data : option Data
}.

(** [isP] and [isT] take the result of a [find], hence an optional node. *)
Definition isP (n : option Node) : bool :=
  match n with Some n => String.eqb (n_type n) "place" | None => false end.

Definition isT (n : option Node) : bool :=
  match n with Some n => String.eqb (n_type n) "transition" | None => false end.

(** [p.data?.tokens ?? 0] *)
Definition node_tokens (p : Node) : Z := default 0 (n_data p ≫= tokens).

(** [a.data?.weight ?? 1] *)
Definition edge_weight (a : Edge) : Z := default 1 (e_data a ≫= weight).

(** [(inArcs[key] ||= []).push(a)] *)
Definition push_arc {A : Type} (inArcs : gmap string (list A)) (key : string)
  (a : A) : gmap string (list A) :=
  <[key := default [] (inArcs !! key) ++ [a]]> inArcs.

(** The [es.forEach] loop shared by [computeEnabled] and [enabledAtTokens]:
    an edge is indexed under its target when that id maps to type
    ['transition']. *)
Definition indexInArcs (nodeById : gmap string string) (es : list Edge)
  : gmap string (list Edge) :=
  foldl (fun inArcs e =>
           if decide (nodeById !! target e = Some "transition")
           then push_arc inArcs (target e) e
           else inArcs) ∅ es.

Definition computeEnabled (ns : list Node) (es : list Edge) : list string :=
  let placeTokens :=
    fromEntries (map (fun p => (n_id p, node_tokens p))
                     (List.filter (fun n => String.eqb (n_type n) "place") ns)) in
  let nodeById := fromEntries (map (fun n => (n_id n, n_type n)) ns) in
  let inArcs := indexInArcs nodeById es in
  map n_id
    (List.filter
       (fun tr => forallb
                    (fun a => default 0 (placeTokens !! source a) >=? edge_weight a)
                    (default [] (inArcs !! n_id tr)))
       (List.filter (fun n => String.eqb (n_type n) "transition") ns)).

(** [enabledAtTokens]: [nodes] and [edges] are the component's current ones,
    [tks] is a stored marking. *)
Definition enabledAtTokens (nodes : list Node) (edges : list Edge)
  (tks : gmap string Z) : list string :=
  let nodeById := fromEntries (map (fun n => (n_id n, n_type n)) nodes) in
  let inArcs := indexInArcs nodeById edges in
  map n_id
    (List.filter
       (fun tr => forallb
                    (fun a => default 0 (tks !! source a) >=? edge_weight a)
                    (default [] (inArcs !! n_id tr)))
       (List.filter (fun n => String.eqb (n_type n) "transition") nodes)).

(** [collectTokensFromNodes] *)
Definition collectTokensFromNodes (ns : list Node) : gmap string Z :=
  fromEntries (map (fun p => (n_id p, node_tokens p))
                   (List.filter (fun n => isP (Some n)) ns)).

(** The [es.forEach] loop again, with the reads of [nodeById] and [inArcs]
    as JavaScript performs them; a throw inside the callback ends the
    loop. *)
Definition indexInArcsJs (nodeById : gmap string string) (es : list Edge)
  : option (gmap string (list Edge)) :=
  foldl (fun acc e =>
           inArcs ← acc;
           if typeIs nodeById (target e) "transition"
           then pushArcJs inArcs (target e) e
           else Some inArcs) (Some ∅) es.

(** [computeEnabled] with every read of [placeTokens], [nodeById] and
    [inArcs] as JavaScript performs it; [None] is a TypeError thrown by the
    call. *)
Definition computeEnabledJs (ns : list Node) (es : list Edge)
  : option (list string) :=
  let placeTokens :=
    fromEntries (map (fun p => (n_id p, node_tokens p))
                     (List.filter (fun n => String.eqb (n_type n) "place") ns)) in
  let nodeById := fromEntries (map (fun n => (n_id n, n_type n)) ns) in
  inArcs ← indexInArcsJs nodeById es;
  kept ← filterJs
           (fun tr =>
              bucket ← bucketJs inArcs (n_id tr);
              Some (forallb
                      (fun a => enoughJs placeTokens (source a) (edge_weight a))
                      bucket))
           (List.filter (fun n => String.eqb (n_type n) "transition") ns);
  Some (map n_id kept).

(** [enabledAtTokens] in the same way; [tks] holds the own entries of the
    stored marking, an object built by [Object.fromEntries]. *)
Definition enabledAtTokensJs (nodes : list Node) (edges : list Edge)
  (tks : gmap string Z) : option (list string) :=
  let nodeById := fromEntries (map (fun n => (n_id n, n_type n)) nodes) in
  inArcs ← indexInArcsJs nodeById edges;
  kept ← filterJs
           (fun tr =>
              bucket ← bucketJs inArcs (n_id tr);
              Some (forallb
                      (fun a => enoughJs tks (source a) (edge_weight a))
                      bucket))
           (List.filter (fun n => String.eqb (n_type n) "transition") nodes);
  Some (map n_id kept).

(** ** App.jsx: component state *)

(** A history step: [{ fired, tokens, ts }]. *)
Record Step : Type := {
  fired : option string;
  step_tokens : gmap string Z;
  ts : Z
}.

(** The pieces of component state the handlers below read or write;
    [hIndexRef] is the [useRef] mirror of [hIndex], [placeCounter] and
    [transCounter] are the module-level counters. *)
Record AppState : Type := {
  nodes : list Node;
  edges : list Edge;
  selectedId : option string;
  selectedIds : list string;
  enabled : list string;
  isFiring : bool;
  autoRun : bool;
  error : string;
  history : list Step;
  hIndex : Z;
  hIndexRef : Z;
  placeCounter : nat;
  transCounter : nat
}.

Definition set_nodes (v : list Node) (st : AppState) : AppState :=
  {| nodes := v; edges := edges st; selectedId := selectedId st;
     selectedIds := selectedIds st; enabled := enabled st;
     isFiring := isFiring st; autoRun := autoRun st; error := error st;
     history := history st; hIndex := hIndex st; hIndexRef := hIndexRef st;
     placeCounter := placeCounter st; transCounter := transCounter st |}.

Definition set_edges (v : list Edge) (st : AppState) : AppState :=
  {| nodes := nodes st; edges := v; selectedId := selectedId st;
     selectedIds := selectedIds st; enabled := enabled st;
     isFiring := isFiring st; autoRun := autoRun st; error := error st;
     history := history st; hIndex := hIndex st; hIndexRef := hIndexRef st;
     placeCounter := placeCounter st; transCounter := transCounter st |}.

Definition set_selectedId (v : option string) (st : AppState) : AppState :=
  {| nodes := nodes st; edges := edges st; selectedId := v;
     selectedIds := selectedIds st; enabled := enabled st;
     isFiring := isFiring st; autoRun := autoRun st; error := error st;
     history := history st; hIndex := hIndex st; hIndexRef := hIndexRef st;
     placeCounter := placeCounter st; transCounter := transCounter st |}.

Definition set_selectedIds (v : list string) (st : AppState) : AppState :=
  {| nodes := nodes st; edges := edges st; selectedId := selectedId st;
     selectedIds := v; enabled := enabled st; isFiring := isFiring st;
     autoRun := autoRun st; error := error st; history := history st;
     hIndex := hIndex st; hIndexRef := hIndexRef st;
     placeCounter := placeCounter st; transCounter := transCounter st |}.

Definition set_enabled (v : list string) (st : AppState) : AppState :=
  {| nodes := nodes st; edges := edges st; selectedId := selectedId st;
     selectedIds := selectedIds st; enabled := v; isFiring := isFiring st;
     autoRun := autoRun st; error := error st; history := history st;
     hIndex := hIndex st; hIndexRef := hIndexRef st;
     placeCounter := placeCounter st; transCounter := transCounter st |}.

Definition set_isFiring (v : bool) (st : AppState) : AppState :=
  {| nodes := nodes st; edges := edges st; selectedId := selectedId st;
     selectedIds := selectedIds st; enabled := enabled st; isFiring := v;
     autoRun := autoRun st; error := error st; history := history st;
     hIndex := hIndex st; hIndexRef := hIndexRef st;
     placeCounter := placeCounter st; transCounter := transCounter st |}.

Definition set_autoRun (v : bool) (st : AppState) : AppState :=
  {| nodes := nodes st; edges := edges st; selectedId := selectedId st;
     selectedIds := selectedIds st; enabled := enabled st;
     isFiring := isFiring st; autoRun := v; error := error st;
     history := history st; hIndex := hIndex st; hIndexRef := hIndexRef st;
     placeCounter := placeCounter st; transCounter := transCounter st |}.

Definition set_error (v : string) (st : AppState) : AppState :=
  {| nodes := nodes st; edges := edges st; selectedId := selectedId st;
     selectedIds := selectedIds st; enabled := enabled st;
     isFiring := isFiring st; autoRun := autoRun st; error := v;
     history := history st; hIndex := hIndex st; hIndexRef := hIndexRef st;
     placeCounter := placeCounter st; transCounter := transCounter st |}.

Definition set_history (v : list Step) (st : AppState) : AppState :=
  {| nodes := nodes st; edges := edges st; selectedId := selectedId st;
     selectedIds := selectedIds st; enabled := enabled st;
     isFiring := isFiring st; autoRun := autoRun st; error := error st;
     history := v; hIndex := hIndex st; hIndexRef := hIndexRef st;
     placeCounter := placeCounter st; transCounter := transCounter st |}.

Definition set_hIndex (v : Z) (st : AppState) : AppState :=
  {| nodes := nodes st; edges := edges st; selectedId := selectedId st;
     selectedIds := selectedIds st; enabled := enabled st;
     isFiring := isFiring st; autoRun := autoRun st; error := error st;
     history := history st; hIndex := v; hIndexRef := hIndexRef st;
     placeCounter := placeCounter st; transCounter := transCounter st |}.

Definition set_hIndexRef (v : Z) (st : AppState) : AppState :=
  {| nodes := nodes st; edges := edges st; selectedId := selectedId st;
     selectedIds := selectedIds st; enabled := enabled st;
     isFiring := isFiring st; autoRun := autoRun st; error := error st;
     history := history st; hIndex := hIndex st; hIndexRef := v;
     placeCounter := placeCounter st; transCounter := transCounter st |}.

Definition set_placeCounter (v : nat) (st : AppState) : AppState :=
  {| nodes := nodes st; edges := edges st; selectedId := selectedId st;
     selectedIds := selectedIds st; enabled := enabled st;
     isFiring := isFiring st; autoRun := autoRun st; error := error st;
     history := history st; hIndex := hIndex st; hIndexRef := hIndexRef st;
     placeCounter := v; transCounter := transCounter st |}.

Definition set_transCounter (v : nat) (st : AppState) : AppState :=
  {| nodes := nodes st; edges := edges st; selectedId := selectedId st;
     selectedIds := selectedIds st; enabled := enabled st;
     isFiring := isFiring st; autoRun := autoRun st; error := error st;
     history := history st; hIndex := hIndex st; hIndexRef := hIndexRef st;
     placeCounter := placeCounter st; transCounter := v |}.

(** The effect [useEffect(() => { hIndexRef.current = hIndex }, [hIndex])],
    run when a render is committed. *)
Definition commit (st : AppState) : AppState := set_hIndexRef (hIndex st) st.

(** ** App.jsx: history recorder *)

Definition clearHistory (st : AppState) : AppState :=
  set_hIndex (-1) (set_history [] st).

(** [now] is the value of [Date.now()]. *)
Definition ensureHistoryInit (now : Z) (st : AppState) : AppState :=
  if (0 <? length (history st))%nat then st
  else
    let step0 := {| fired := None;
                    step_tokens := collectTokensFromNodes (nodes st);
                    ts := now |} in
    set_hIndex 0 (set_history [step0] st).

(** [prev.slice(0, idx + 1)] is taken only for [idx >= 0]. *)
Definition appendHistory (newStep : Step) (st : AppState) : AppState :=
  let idx := hIndexRef st in
  let head := if 0 <=? idx then take (Z.to_nat (idx + 1)) (history st) else [] in
  set_hIndex (hIndex st + 1) (set_history (head ++ [newStep]) st).

(** The [ns.map] callback of [applyStep] and of [fire]: a place node takes
    [tks[n.id] ?? 0], its other data members stay. *)
Definition withTokens (tks : gmap string Z) (n : Node) : Node :=
  if isP (Some n) then
    {| n_id := n_id n; n_type := n_type n;
       n_data := Some {| label := n_data n ≫= label;
                         tokens := Some (default 0 (tks !! n_id n));
                         weight := n_data n ≫= weight |} |}
  else n.

Definition applyStep (step : Step) (st : AppState) : AppState :=
  let updated := map (withTokens (step_tokens step)) (nodes st) in
  set_nodes updated (set_enabled (computeEnabled updated (edges st)) st).

(** [history[idx]] for an index already checked to be in range. *)
Definition goTo (idx : Z) (st : AppState) : AppState :=
  if (idx <? 0) || (Z.of_nat (length (history st)) <=? idx) then st
  else
    match history st !! Z.to_nat idx with
    | Some step => applyStep step (set_hIndex idx (set_autoRun false st))
    | None => st
    end.

Definition stepPrev (st : AppState) : AppState := goTo (hIndex st - 1) st.
Definition stepNext (st : AppState) : AppState := goTo (hIndex st + 1) st.
Definition stepFirst (st : AppState) : AppState := goTo 0 st.
Definition stepLast (st : AppState) : AppState :=
  goTo (Z.of_nat (length (history st)) - 1) st.

(** ** App.jsx: firing through the backend *)

(** What the [/simulate/fire] request comes back with: the places of
    [data.net] as (id, tokens) with [tokens] possibly missing, or a failure
    (a non-ok status, a network or a parse error) with its message. *)
Inductive Response : Type :=
| Fired (places : list (string * option Z))
| Failed (message : string).

(** [fire], with the render that happens while the request is awaited made
    explicit; [now0] and [now1] are the two readings of [Date.now()]. *)
Definition fire (tid : string) (resp : Response) (now0 now1 : Z)
  (st : AppState) : AppState :=
  if isFiring st then st
  else
    let st1 := commit (ensureHistoryInit now0
                         (set_error "" (set_isFiring true st))) in
    let st2 :=
      match resp with
      | Failed message => set_error message st1
      | Fired places =>
          let tks := fromEntries (map (fun p => (p.1, default 0 p.2)) places) in
          let updated := map (withTokens tks) (nodes st1) in
          let en := computeEnabled updated (edges st1) in
          appendHistory {| fired := Some tid; step_tokens := tks; ts := now1 |}
            (set_nodes updated (set_enabled en st1))
      end in
    set_isFiring false st2.

(** ** App.jsx: editing handlers *)

Definition addPlace (st : AppState) : AppState :=
  let id := "P" +:+ pretty (placeCounter st) in
  clearHistory
    (set_nodes (nodes st ++ [ {| n_id := id; n_type := "place";
                                 n_data := Some {| label := Some "";
                                                   tokens := Some 0;
                                                   weight := None |} |} ])
       (set_placeCounter (S (placeCounter st)) st)).

Definition addTransition (st : AppState) : AppState :=
  let id := "T" +:+ pretty (transCounter st) in
  clearHistory
    (set_nodes (nodes st ++ [ {| n_id := id; n_type := "transition";
                                 n_data := Some {| label := Some "";
                                                   tokens := None;
                                                   weight := None |} |} ])
       (set_transCounter (S (transCounter st)) st)).

(** [updateSelected(patch)]: every caller passes [{ data: d }], so the
    spread [{ ...x, ...patch }] replaces the [data] member. *)
Definition updateSelected (d : Data) (st : AppState) : AppState :=
  let selectedEdge :=
    selectedId st ≫= fun sid =>
      List.find (fun e => String.eqb (e_id e) sid) (edges st) in
  let selectedNode :=
    selectedId st ≫= fun sid =>
      List.find (fun n => String.eqb (n_id n) sid) (nodes st) in
  match selectedEdge with
  | Some se =>
      set_edges
        (map (fun e => if String.eqb (e_id e) (e_id se)
                       then {| e_id := e_id e; source := source e;
                               target := target e; e_data := Some d |}
                       else e) (edges st)) st
  | None =>
      match selectedNode with
      | Some sn =>
          set_nodes
            (map (fun n => if String.eqb (n_id n) (n_id sn)
                           then {| n_id := n_id n; n_type := n_type n;
                                   n_data := Some d |}
                           else n) (nodes st)) st
      | None => st
      end
  end.

Definition deleteById (id : string) (st : AppState) : AppState :=
  clearHistory
    (set_selectedIds []
       (set_selectedId None
          (set_edges
             (List.filter
                (fun e => negb (String.eqb (e_id e) id)
                          && negb (String.eqb (source e) id)
                          && negb (String.eqb (target e) id)) (edges st))
             (set_nodes
                (List.filter (fun n => negb (String.eqb (n_id n) id)) (nodes st))
                st)))).

Section Connect.

(** [addEdge] of [@xyflow/react], applied to the new connection
    [{ source, target, data }] and the current edges. *)
Variable addEdge : string -> string -> Data -> list Edge -> list Edge.

Definition onConnect (src tgt : string) (st : AppState) : AppState :=
  let s := List.find (fun n => String.eqb (n_id n) src) (nodes st) in
  let t := List.find (fun n => String.eqb (n_id n) tgt) (nodes st) in
  let ok := (isP s && isT t) || (isT s && isP t) in
  if negb ok then st
  else
    clearHistory
      (set_edges
         (addEdge src tgt {| label := None; tokens := None; weight := Some 1 |}
            (edges st)) st).

End Connect.

(** ** AnalysisPanel.jsx: the net passed to the panel and the state analysis *)

Record Place : Type := {
  p_id : string;
  p_label : string;
  p_tokens : Z
}.

Record Transition : Type := {
  t_id : string;
  t_label : string
}.

(** [weight] may be missing: the code reads [a.weight ?? 1]. *)
Record Arc : Type := {
  a_id : string;
  src : string;
  dst : string;
  a_weight : option Z
}.

Record Net : Type := {
  places : list Place;
  transitions : list Transition;
  arcs : list Arc
}.

(** What the panel shows: the three state cells written by [localAnalyze]
    and by the handler of the backend's answer. *)
Record PanelState : Type := {
  shown_enabled : list string;
  shown_deadlocked : bool;
  serverMarking : gmap string Z
}.

(** The [net.arcs.forEach] loop of [localAnalyze]: an arc is indexed only
    when its target is a transition of the net and its source a place of
    the net. *)
Definition indexNetArcs (placeIds transIds : gset string) (l : list Arc)
  : gmap string (list Arc) :=
  foldl (fun inArcs a =>
           if decide (dst a ∈ transIds ∧ src a ∈ placeIds)
           then push_arc inArcs (dst a) a
           else inArcs) ∅ l.

(** [(m[a.src] ?? 0) >= (a.weight ?? 1)] *)
Definition arcSatisfied (m : gmap string Z) (a : Arc) : bool :=
  default 0 (m !! src a) >=? default 1 (a_weight a).

(** [localAnalyze]; [marking] is the prop, possibly missing. *)
Definition localAnalyze (net : Net) (marking : option (gmap string Z))
  : PanelState :=
  let m := default ∅ marking in
  let placeIds : gset string := list_to_set (map p_id (places net)) in
  let transIds : gset string := list_to_set (map t_id (transitions net)) in
  let inArcs := indexNetArcs placeIds transIds (arcs net) in
  let en :=
    map t_id
      (List.filter
         (fun t => forallb (arcSatisfied m) (default [] (inArcs !! t_id t)))
         (transitions net)) in
  {| shown_enabled := en;
     shown_deadlocked := (length en =? 0)%nat;
     serverMarking := m |}.

(** The JSON answer of [/analyze/state]; [deadlocked] is read through [!!],
    so only its truthiness matters. *)
Record StateAnswer : Type := {
  ans_enabled : option (list string);
  ans_deadlocked : bool;
  ans_marking : option (gmap string Z)
}.

(** The three setters run on an ok answer. *)
Definition showAnswer (data : StateAnswer) (marking : option (gmap string Z))
  : PanelState :=
  {| shown_enabled := default [] (ans_enabled data);
     shown_deadlocked :=
       ans_deadlocked data || (length (default [] (ans_enabled data)) =? 0)%nat;
     serverMarking := default (default ∅ marking) (ans_marking data) |}.

(** The effect that loads the analysis: [None] stands for a request that
    failed or came back with a non-ok status, which falls back to
    [localAnalyze]. *)
Definition analyzeState (answer : option StateAnswer) (net : Net)
  (marking : option (gmap string Z)) : PanelState :=
  match answer with
  | Some data => showAnswer data marking
  | None => localAnalyze net marking
  end.

(** The [net.arcs.forEach] loop of [localAnalyze] with the reads of [inArcs]
    as JavaScript performs them; [places] and [trans] are [Set]s, whose
    [has] looks at nothing but the elements. *)
Definition indexNetArcsJs (placeIds transIds : gset string) (l : list Arc)
  : option (gmap string (list Arc)) :=
  foldl (fun acc a =>
           inArcs ← acc;
           if bool_decide (dst a ∈ transIds) && bool_decide (src a ∈ placeIds)
           then pushArcJs inArcs (dst a) a
           else Some inArcs) (Some ∅) l.

(** [(m[a.src] ?? 0) >= (a.weight ?? 1)], the marking being an object built
    by [Object.fromEntries] or the literal [{}]. *)
Definition arcSatisfiedJs (m : gmap string Z) (a : Arc) : bool :=
  enoughJs m (src a) (default 1 (a_weight a)).

(** [localAnalyze] with every read of [inArcs] and of the marking as
    JavaScript performs it.  [None] is a TypeError thrown before any of the
    three setters has run, so that the panel shows nothing new. *)
Definition localAnalyzeJs (net : Net) (marking : option (gmap string Z))
  : option PanelState :=
  let m := default ∅ marking in
  let placeIds : gset string := list_to_set (map p_id (places net)) in
  let transIds : gset string := list_to_set (map t_id (transitions net)) in
  inArcs ← indexNetArcsJs placeIds transIds (arcs net);
  kept ← filterJs
           (fun t =>
              bucket ← bucketJs inArcs (t_id t);
              Some (forallb (arcSatisfiedJs m) bucket))
           (transitions net);
  let en := map t_id kept in
  Some {| shown_enabled := en;
          shown_deadlocked := (length en =? 0)%nat;
          serverMarking := m |}.

(** The effect that loads the analysis, over [localAnalyzeJs]. *)
Definition analyzeStateJs (answer : option StateAnswer) (net : Net)
  (marking : option (gmap string Z)) : option PanelState :=
  match answer with
  | Some data => Some (showAnswer data marking)
  | None => localAnalyzeJs net marking
  end.

(** ** Properties of a net and of a marking, in the words of the
    specification *)

(** The marking read at a place id, absent places counting as zero. *)
Definition tokensAt (m : gmap string Z) (p : string) : Z := default 0 (m !! p).

(** [t] names a transition node and every edge into [t] finds at least its
    weight in tokens at its source. *)
Definition EnabledIn (ns : list Node) (es : list Edge) (m : gmap string Z)
  (t : string) : Prop :=
  (∃ n, n ∈ ns ∧ n_type n = "transition" ∧ n_id n = t) ∧
  ∀ e, e ∈ es → target e = t → edge_weight e <= tokensAt m (source e).

(** The same for the net handed to the analysis panel: the input arcs of
    [t] are the arcs from a place of the net to [t]. *)
Definition EnabledInNet (net : Net) (m : gmap string Z) (t : string) : Prop :=
  t ∈ map t_id (transitions net) ∧
  ∀ a, a ∈ arcs net → dst a = t → src a ∈ map p_id (places net) →
       default 1 (a_weight a) <= tokensAt m (src a).

(** An arc is dangling when its source is not a place of the net or its
    target not a transition of the net. *)
Definition dangling (net : Net) (a : Arc) : Prop :=
  src a ∉ map p_id (places net) ∨ dst a ∉ map t_id (transitions net).

(** The net with its dangling arcs taken out. *)
Definition withoutDangling (net : Net) : Net :=
  {| places := places net;
     transitions := transitions net;
     arcs := List.filter
               (fun a => bool_decide (dst a ∈ map t_id (transitions net)) &&
                         bool_decide (src a ∈ map p_id (places net)))
               (arcs net) |}.

(** No transition node is named like an inherited member. *)
Definition TransitionIdsPlain (ns : list Node) : Prop :=
  ∀ n, n ∈ ns → n_type n = "transition" → inherited (n_id n) = false.

(** An edge that starts at the name of an inherited member has a positive
    weight, as every edge made by the editor or by the import has. *)
Definition SourcesPlain (es : list Edge) : Prop :=
  ∀ e, e ∈ es → inherited (source e) = true → 0 < edge_weight e.

(** The same two conditions on the net handed to the panel. *)
Definition NetTransitionIdsPlain (net : Net) : Prop :=
  ∀ t, t ∈ transitions net → inherited (t_id t) = false.

Definition NetSourcesPlain (net : Net) : Prop :=
  ∀ a, a ∈ arcs net → inherited (src a) = true → 0 < default 1 (a_weight a).

(** An answer of [/analyze/state] that is right about the net, as far as the
    panel reads it: it lists the enabled transitions, and does not flag a
    deadlock while one of them is enabled. *)
Definition AnswerFor (net : Net) (m : gmap string Z) (data : StateAnswer)
  : Prop :=
  (∀ t, t ∈ default [] (ans_enabled data) ↔ EnabledInNet net m t) ∧
  (ans_deadlocked data = true → ∀ t, ¬ EnabledInNet net m t).

(** ** Sample data *)

(** A small analysis answer: [P1] was seen with 2 tokens, [P2] with none. *)
Definition demoResult (hit : bool) : KResult :=
  {| place_max := [("P1", 2 # 1); ("P2", 0 # 1)]; hit_limits := hit |}.

(** The two-place example net of the editor ([seed]). *)
Definition demoNodes : list Node :=
  [ {| n_id := "P1"; n_type := "place";
       n_data := Some {| label := Some "P1"; tokens := Some 1; weight := None |} |};
    {| n_id := "P2"; n_type := "place";
       n_data := Some {| label := Some "P2"; tokens := Some 0; weight := None |} |};
    {| n_id := "T1"; n_type := "transition";
       n_data := Some {| label := Some "T1"; tokens := None; weight := None |} |} ].

Definition demoEdges : list Edge :=
  [ {| e_id := "A1"; source := "P1"; target := "T1";
       e_data := Some {| label := None; tokens := None; weight := Some 1 |} |};
    {| e_id := "A2"; source := "T1"; target := "P2";
       e_data := Some {| label := None; tokens := None; weight := Some 1 |} |} ].

(** The marking after [T1] has fired in the example net. *)
Definition demoFiredTokens : gmap string Z :=
  fromEntries [("P1", 0); ("P2", 1)].

(** The example net in simulation, nothing recorded yet. *)
Definition freshState : AppState :=
  {| nodes := demoNodes; edges := demoEdges; selectedId := None;
     selectedIds := []; enabled := ["T1"]; isFiring := false;
     autoRun := false; error := ""; history := []; hIndex := -1;
     hIndexRef := -1; placeCounter := 3; transCounter := 2 |}.

(** The same net after one recorded firing, the cursor on the last step. *)
Definition recordedState : AppState :=
  {| nodes := map (withTokens demoFiredTokens) demoNodes; edges := demoEdges;
     selectedId := None; selectedIds := []; enabled := []; isFiring := false;
     autoRun := false; error := "";
     history := [ {| fired := None;
                     step_tokens := collectTokensFromNodes demoNodes;
                     ts := 1000 |};
                  {| fired := Some "T1"; step_tokens := demoFiredTokens;
                     ts := 1400 |} ];
     hIndex := 1; hIndexRef := 1; placeCounter := 3; transCounter := 2 |}.

(** [recordedState] with the arc [A1] selected in the side panel. *)
Definition arcSelectedState : AppState :=
  set_selectedId (Some "A1") recordedState.

(** The patch sent by the weight field for the value 2. *)
Definition weightTwo : Data :=
  {| label := None; tokens := None; weight := Some 2 |}.

(** A net with one place, one transition and a single arc into the
    transition whose source names no node. *)
Definition danglingNet : Net :=
  {| places := [ {| p_id := "P1"; p_label := ""; p_tokens := 0 |} ];
     transitions := [ {| t_id := "T1"; t_label := "" |} ];
     arcs := [ {| a_id := "A1"; src := "ghost"; dst := "T1";
                  a_weight := Some 5 |} ] |}.

(** ** App.jsx: net <-> UI mapping *)

(** [toNet]. The place and transition callbacks read [n.data.label] and
    [n.data.tokens] without [?.], so a place or transition node without
    [data] makes the call throw: [None]. An edge id that is empty is
    replaced by [`A${i+1}`]. *)
Definition toNet (ns : list Node) (es : list Edge) : option Net :=
  ps ← mapM (fun n => d ← n_data n;
                      Some {| p_id := n_id n;
                              p_label := default "" (label d);
                              p_tokens := default 0 (tokens d) |})
            (List.filter (fun n => isP (Some n)) ns);
  ts ← mapM (fun n => d ← n_data n;
                      Some {| t_id := n_id n;
                              t_label := default "" (label d) |})
            (List.filter (fun n => isT (Some n)) ns);
  Some {| places := ps;
          transitions := ts;
          arcs := imap (fun i e =>
                          {| a_id := if String.eqb (e_id e) ""
                                     then "A" +:+ pretty (S i) else e_id e;
                             src := source e;
                             dst := target e;
                             a_weight := Some (edge_weight e) |}) es |}.

(** [getMarking], the marking handed to the analysis panel. *)
Definition getMarking (ns : list Node) : gmap string Z :=
  fromEntries (map (fun p => (n_id p, node_tokens p))
                   (List.filter (fun n => isP (Some n)) ns)).

(** The value of a decimal digit, as [\d] and [parseInt] see it. *)
Definition digitValue (c : ascii) : option nat :=
  let n := nat_of_ascii c in
  if (48 <=? n)%nat && (n <=? 57)%nat then Some (n - 48)%nat else None.

(** [parseInt(s, 10)] on a string of decimal digits ([None] on any other
    character); digit strings are taken short enough to be read exactly. *)
Fixpoint parseDigits (acc : nat) (s : string) : option nat :=
  match s with
  | EmptyString => Some acc
  | String c s' =>
      match digitValue c with
      | Some d => parseDigits (10 * acc + d) s'
      | None => None
      end
  end.

(** [s] without the leading [p], when [s] starts with [p]. *)
Fixpoint stripPrefix (p s : string) : option string :=
  match p, s with
  | EmptyString, _ => Some s
  | String a p', String b s' =>
      if Ascii.eqb a b then stripPrefix p' s' else None
  | String _ _, EmptyString => None
  end.

(** The callback of [items.reduce] in [normalizeCounter], without the
    [Math.max]: the number matched by [^prefix(\d+)$] in [id], or 0. *)
Definition counterOf (prefix id : string) : nat :=
  match stripPrefix prefix id with
  | Some (String c rest) => default 0%nat (parseDigits 0 (String c rest))
  | _ => 0%nat
  end.

Definition normalizeCounter (ids : list string) (prefix : string)
  (current : nat) : nat :=
  let maxNum := foldl (fun m id => Nat.max m (counterOf prefix id)) 0%nat ids in
  Nat.max current (maxNum + 1).

(** [fromNet]: the nodes are the places followed by the transitions. *)
Definition fromNet (net : Net) (st : AppState) : AppState :=
  let ns :=
    map (fun p => {| n_id := p_id p; n_type := "place";
                     n_data := Some {| label := Some (p_label p);
                                       tokens := Some (p_tokens p);
                                       weight := None |} |}) (places net)
    ++ map (fun t => {| n_id := t_id t; n_type := "transition";
                        n_data := Some {| label := Some (t_label t);
                                          tokens := None;
                                          weight := None |} |})
           (transitions net) in
  let es :=
    map (fun a => {| e_id := a_id a; source := src a; target := dst a;
                     e_data := Some {| label := None; tokens := None;
                                       weight := Some (default 1 (a_weight a)) |} |})
        (arcs net) in
  clearHistory
    (set_transCounter
       (normalizeCounter (map t_id (transitions net)) "T" (transCounter st))
       (set_placeCounter
          (normalizeCounter (map p_id (places net)) "P" (placeCounter st))
          (set_selectedIds []
             (set_selectedId None (set_edges es (set_nodes ns st)))))).

(** The end of [handleImportPNML], from the reference check on, applied to
    the places, transitions and arcs read from the file: the first arc that
    names an unknown node aborts the import with its message. *)
Definition importParsed (net : Net) (st : AppState) : AppState :=
  let ids : gset string :=
    list_to_set (map p_id (places net) ++ map t_id (transitions net)) in
  match List.find (fun arc => negb (bool_decide (src arc ∈ ids))
                              || negb (bool_decide (dst arc ∈ ids)))
                  (arcs net) with
  | Some arc =>
      set_error ("Import PNML failed: Arc " +:+ a_id arc
                 +:+ " references unknown nodes") st
  | None => set_error "" (fromNet net (set_autoRun false st))
  end.

(** The Delete/Backspace handler, once the key and the focus have been
    checked. *)
Definition deleteSelected (st : AppState) : AppState :=
  match selectedIds st with
  | [] => st
  | _ :: _ =>
      let sel : gset string := list_to_set (selectedIds st) in
      clearHistory
        (set_selectedIds []
           (set_selectedId None
              (set_edges
                 (List.filter
                    (fun e => negb (bool_decide (e_id e ∈ sel))
                              && negb (bool_decide (source e ∈ sel))
                              && negb (bool_decide (target e ∈ sel)))
                    (edges st))
                 (set_nodes
                    (List.filter (fun n => negb (bool_decide (n_id n ∈ sel)))
                                 (nodes st))
                    st))))
  end.

(** ** App.jsx: handlers that call other handlers of the same render *)

(** [ensureHistoryInit] as the closure of the render [snap]: it reads
    [history.length] and [nodes] of that render and writes to the pending
    state. *)
Definition ensureHistoryInitOf (snap : AppState) (now : Z) (st : AppState)
  : AppState :=
  if (0 <? length (history snap))%nat then st
  else
    let step0 := {| fired := None;
                    step_tokens := collectTokensFromNodes (nodes snap);
                    ts := now |} in
    set_hIndex 0 (set_history [step0] st).

(** [fire] as the closure of the render [snap]: [isFiring], [edges] and
    the history length are those of [snap]. *)
Definition fireOf (snap : AppState) (tid : string) (resp : Response)
  (now0 now1 : Z) (st : AppState) : AppState :=
  if isFiring snap then st
  else
    let st1 := commit (ensureHistoryInitOf snap now0
                         (set_error "" (set_isFiring true st))) in
    let st2 :=
      match resp with
      | Failed message => set_error message st1
      | Fired places =>
          let tks := fromEntries (map (fun p => (p.1, default 0 p.2)) places) in
          let updated := map (withTokens tks) (nodes st1) in
          let en := computeEnabled updated (edges snap) in
          appendHistory {| fired := Some tid; step_tokens := tks; ts := now1 |}
            (set_nodes updated (set_enabled en st1))
      end in
    set_isFiring false st2.

(** The Step button: [ensureHistoryInit()], then [fire] on the first
    locally enabled transition, if any. *)
Definition stepButton (resp : Response) (now0 now1 now2 : Z) (st : AppState)
  : AppState :=
  let st1 := ensureHistoryInitOf st now0 st in
  match computeEnabled (nodes st) (edges st) with
  | tid :: _ => fireOf st tid resp now1 now2 st1
  | [] => st1
  end.

(** One tick of the auto-run loop ([step] in the effect), taken while
    [autoRun] is on in simulation mode. *)
Definition autoStep (resp : Response) (now0 now1 now2 : Z) (st : AppState)
  : AppState :=
  let st1 := ensureHistoryInitOf st now0 st in
  match computeEnabled (nodes st) (edges st) with
  | [] => set_enabled [] (set_autoRun false st1)
  | tid :: _ => fireOf st tid resp now1 now2 st1
  end.

(** The Run button. *)
Definition runButton (now : Z) (st : AppState) : AppState :=
  let st1 := ensureHistoryInitOf st now st in
  set_autoRun (negb (autoRun st1)) st1.

(** ** App.jsx: clicks on a node *)

(** The state read by [handleNodeClick] beyond [AppState]. *)
Record UiState : Type := {
  app : AppState;
  mode : string;
  connectFrom : option string
}.

Definition set_app (v : AppState) (ui : UiState) : UiState :=
  {| app := v; mode := mode ui; connectFrom := connectFrom ui |}.

Definition set_connectFrom (v : option string) (ui : UiState) : UiState :=
  {| app := app ui; mode := mode ui; connectFrom := v |}.

(** Truthiness of [connectFrom]: neither [null] nor the empty string. *)
Definition pendingSource (ui : UiState) : option string :=
  match connectFrom ui with
  | Some EmptyString => None
  | other => other
  end.

Section NodeClick.

Variable addEdge : string -> string -> Data -> list Edge -> list Edge.

(** [handleNodeClick(nodeId, e)] with [e.shiftKey]; [resp], [now0], [now1]
    are what [fire] meets if it is called. *)
Definition handleNodeClick (nodeId : string) (shiftKey : bool)
  (resp : Response) (now0 now1 : Z) (ui : UiState) : UiState :=
  let st := app ui in
  match List.find (fun n => String.eqb (n_id n) nodeId) (nodes st) with
  | None => ui
  | Some node =>
      if negb shiftKey then
        if String.eqb (mode ui) "simulation"
           && String.eqb (n_type node) "transition" then
          if isFiring st then ui
          else if negb (bool_decide (n_id node ∈ enabled st)) then ui
          else set_app (fire (n_id node) resp now0 now1 st) ui
        else ui
      else if negb (String.eqb (mode ui) "modelling") then ui
      else
        let ui1 := set_app (set_error "" st) ui in
        match pendingSource ui with
        | None => set_connectFrom (Some nodeId) ui1
        | Some from =>
            if String.eqb from nodeId then set_connectFrom None ui1
            else
              let s := List.find (fun n => String.eqb (n_id n) from) (nodes st) in
              let t := Some node in
              let ok := (isP s && isT t) || (isT s && isP t) in
              if negb ok then
                set_connectFrom None
                  (set_app (set_error "Only P↔T connections are allowed" st) ui)
              else
                set_connectFrom None
                  (set_app
                     (clearHistory
                        (set_edges
                           (addEdge from nodeId
                              {| label := None; tokens := None;
                                 weight := Some 1 |} (edges st))
                           (set_error "" st))) ui)
        end
  end.

End NodeClick.

(** ** App.jsx: what a place shows, on the canvas and in the TikZ export *)

Definition DOT_LIMIT : Z := 6.

(** The children [PlaceNode] renders inside [tokenVis], in order. *)
Inductive TokenPart : Type :=
| EmptyLabel
| DotRow (dots : nat)
| CountLabel (count : Z).

(** [PlaceNode]: [tokens = Math.max(0, data.tokens ?? 0)]; one dot per
    element of [Array.from({ length: tokens })]. *)
Definition placeNodeParts (dataTokens : option Z) : list TokenPart :=
  let tks := Z.max 0 (default 0 dataTokens) in
  let showDots := (0 <? tks) && (tks <=? DOT_LIMIT) in
  (if tks =? 0 then [EmptyLabel] else [])
  ++ (if showDots then [DotRow (Z.to_nat tks)] else [])
  ++ (if negb showDots && (DOT_LIMIT <? tks) then [CountLabel tks] else []).

(** [x | 0]: conversion to a signed 32-bit integer. *)
Definition toInt32 (x : Z) : Z := (x + 2 ^ 31) mod 2 ^ 32 - 2 ^ 31.

(** [tokenOffsets] of [buildTikZ]; the offsets are exact decimals. *)
Definition tokenOffsets (k : Z) : list (Q * Q) :=
  match Z.max 0%Z (toInt32 k) with
  | 0%Z => []
  | 1%Z => [(0, 0)]
  | 2%Z => [(-(22 # 100), 0); (22 # 100, 0)]
  | 3%Z => [(-(24 # 100), -(14 # 100)); (24 # 100, -(14 # 100)); (0, 22 # 100)]
  | 4%Z => [(-(24 # 100), -(24 # 100)); (24 # 100, -(24 # 100));
          (-(24 # 100), 24 # 100); (24 # 100, 24 # 100)]
  | 5%Z => [(-(24 # 100), -(24 # 100)); (24 # 100, -(24 # 100)); (0, 0);
          (-(24 # 100), 24 # 100); (24 # 100, 24 # 100)]
  | _ => [(-(30 # 100), -(18 # 100)); (0, -(18 # 100)); (30 # 100, -(18 # 100));
          (-(30 # 100), 18 # 100); (0, 18 # 100); (30 # 100, 18 # 100)]
  end%Q.

(** What one callback of [tokenLines] draws for a place: nothing, one
    [tokenDot] node per offset, or one [tokenCount] node. *)
Inductive TikzTokens : Type :=
| NoTokens
| TokenDots (offsets : list (Q * Q))
| TokenCount (count : Z).

Definition tikzTokens (placeTokens : Z) : TikzTokens :=
  let k := Z.max 0 (toInt32 placeTokens) in
  if k =? 0 then NoTokens
  else if k <=? 6 then TokenDots (tokenOffsets k)
  else TokenCount k.

(** ** App.jsx: escaping for PNML and TikZ *)

(** The double quote, given by its code. *)
Definition dquote : ascii := ascii_of_nat 34.

(** The replacement callback of [esc]. *)
Definition escChar (c : ascii) : string :=
  if Ascii.eqb c "&"%char then "&amp;"
  else if Ascii.eqb c "<"%char then "&lt;"
  else if Ascii.eqb c ">"%char then "&gt;"
  else if Ascii.eqb c dquote then "&quot;"
  else if Ascii.eqb c "'"%char then "&apos;"
  else String c EmptyString.

(** [esc]: every ampersand, angle bracket, double quote and apostrophe is
    replaced by its entity; the string is taken as its bytes (the five
    characters are ASCII). *)
Fixpoint esc (s : string) : string :=
  match s with
  | EmptyString => EmptyString
  | String c s' => escChar c +:+ esc s'
  end.

(** The characters of the class [[%$&#_^{}]]. *)
Definition texSpecial (c : ascii) : bool :=
  Ascii.eqb c "%"%char || Ascii.eqb c "$"%char || Ascii.eqb c "&"%char || Ascii.eqb c "#"%char
  || Ascii.eqb c "_"%char || Ascii.eqb c "^"%char || Ascii.eqb c "{"%char || Ascii.eqb c "}"%char.

(** [escTex]: every character of the class gets a backslash in front. *)
Fixpoint escTex (s : string) : string :=
  match s with
  | EmptyString => EmptyString
  | String c s' =>
      if texSpecial c then String "\"%char (String c (escTex s'))
      else String c (escTex s')
  end.

(** ** AnalysisPanel.jsx: the k-bounded request and the token total *)

(** The [k] member of the request body of [runKBounded]:
    [Number.isFinite(+kInput) ? +kInput : null]. *)
Definition requestK (k : Js.num) : option Js.num :=
  if Js.isFinite k then Some k else None.

(** [totalTokens]: the sum of the values of [serverMarking]. *)
Definition totalTokens (serverMarking : gmap string Z) : Z :=
  map_fold (fun _ v s => s + v) 0 serverMarking.

(** ** Invariants of the state *)

(** The cursor and its mirror agree, and the cursor is [-1] on an empty
    history and an index of the history otherwise. *)
Definition HistoryOk (st : AppState) : Prop :=
  hIndexRef st = hIndex st ∧
  ((history st = [] ∧ hIndex st = -1) ∨
   0 <= hIndex st < Z.of_nat (length (history st))).

(** Every edge starts and ends at a node of the state. *)
Definition Resolved (st : AppState) : Prop :=
  ∀ e, e ∈ edges st →
       source e ∈ map n_id (nodes st) ∧ target e ∈ map n_id (nodes st).

(** Every edge runs from a place node to a transition node or back. *)
Definition Bipartite (ns : list Node) (es : list Edge) : Prop :=
  ∀ e, e ∈ es →
       ∃ s t, s ∈ ns ∧ t ∈ ns ∧ n_id s = source e ∧ n_id t = target e ∧
              ((n_type s = "place" ∧ n_type t = "transition") ∨
               (n_type s = "transition" ∧ n_type t = "place")).

(** ** The handlers as events *)

(** The component state of the first render. *)
Definition initialState : AppState :=
  {| nodes := []; edges := []; selectedId := None; selectedIds := [];
     enabled := []; isFiring := false; autoRun := false; error := "";
     history := []; hIndex := -1; hIndexRef := -1;
     placeCounter := 1; transCounter := 1 |}.

(** One user or timer event, with what the outside world answers to it;
    [ESelect] carries what the selection callback stores. *)
Inductive Event : Type :=
| EFire (tid : string) (resp : Response) (now0 now1 : Z)
| EStep (resp : Response) (now0 now1 now2 : Z)
| EAuto (resp : Response) (now0 now1 now2 : Z)
| ERun (now : Z)
| EGoTo (idx : Z)
| EPrev
| ENext
| EFirst
| ELast
| EClear
| EAddPlace
| EAddTransition
| EUpdate (d : Data)
| EDelete (id : string)
| EDeleteSelected
| ESelect (id : option string) (ids : list string)
| EConnect (src tgt : string)
| EFromNet (net : Net)
| EImport (net : Net).

Section Events.

Variable addEdge : string -> string -> Data -> list Edge -> list Edge.

(** The handler of an event, followed by the render it causes. *)
Definition handle (ev : Event) (st : AppState) : AppState :=
  commit
    match ev with
    | EFire tid resp now0 now1 => fire tid resp now0 now1 st
    | EStep resp now0 now1 now2 => stepButton resp now0 now1 now2 st
    | EAuto resp now0 now1 now2 => autoStep resp now0 now1 now2 st
    | ERun now => runButton now st
    | EGoTo idx => goTo idx st
    | EPrev => stepPrev st
    | ENext => stepNext st
    | EFirst => stepFirst st
    | ELast => stepLast st
    | EClear => clearHistory st
    | EAddPlace => addPlace st
    | EAddTransition => addTransition st
    | EUpdate d => updateSelected d st
    | EDelete id => deleteById id st
    | EDeleteSelected => deleteSelected st
    | ESelect id ids => set_selectedIds ids (set_selectedId id st)
    | EConnect src tgt => onConnect addEdge src tgt st
    | EFromNet net => fromNet net st
    | EImport net => importParsed net st
    end.

(** The states a sequence of events leads to from the first render. *)
Inductive reachable : AppState -> Prop :=
| reachable_init : reachable initialState
| reachable_step ev st : reachable st -> reachable (handle ev st).

End Events.

(** ** More sample data *)

(** The net built by [seed]. *)
Definition demoNet : Net :=
  {| places := [ {| p_id := "P1"; p_label := "P1"; p_tokens := 1 |};
                 {| p_id := "P2"; p_label := "P2"; p_tokens := 0 |} ];
     transitions := [ {| t_id := "T1"; t_label := "T1" |} ];
     arcs := [ {| a_id := "A1"; src := "P1"; dst := "T1"; a_weight := Some 1 |};
               {| a_id := "A2"; src := "T1"; dst := "P2"; a_weight := Some 1 |} ] |}.

(** A stand-in for the library's [addEdge]: the new edge goes to the end,
    under an id made of its end points. *)
Definition plainAddEdge (s t : string) (d : Data) (es : list Edge)
  : list Edge :=
  es ++ [ {| e_id := "xy-edge__" +:+ s +:+ "-" +:+ t; source := s;
             target := t; e_data := Some d |} ].

(** What the backend answers when [T1] fires in the example net. *)
Definition demoFired : Response := Fired [("P1", Some 0); ("P2", Some 1)].

(** The marking of the example net, as [getMarking] builds it. *)
Definition demoMarking : gmap string Z := fromEntries [("P1", 1); ("P2", 0)].

(** The answer of [/analyze/state] for the example net at that marking. *)
Definition demoAnswer : StateAnswer :=
  {| ans_enabled := Some ["T1"]; ans_deadlocked := false;
     ans_marking := None |}.

(** An answer that flags a deadlock and lists an enabled transition. *)
Definition flaggedAnswer : StateAnswer :=
  {| ans_enabled := Some ["T1"]; ans_deadlocked := true;
     ans_marking := None |}.

(** A single transition node named like an inherited member, as an imported
    file may name it. *)
Definition constructorNodes : list Node :=
  [ {| n_id := "constructor"; n_type := "transition";
       n_data := Some {| label := Some ""; tokens := None; weight := None |} |} ].




(** * Theorems *)

(** ** Dictionaries built by [Object.fromEntries] *)

Section FromEntries.
Context {V : Type}.
Implicit Types (l : list (string * V)) (k : string) (v : V).

Lemma fromEntries_snoc l k v :
  fromEntries (l ++ [(k, v)]) = <[k := v]> (fromEntries l).
Proof. unfold fromEntries. by rewrite foldl_app. Qed.

Lemma fromEntries_lookup_None l k :
  ¬ In k (map fst l) → fromEntries l !! k = None.
Proof.
  induction l as [|[k' v'] l IH] using rev_ind; intros Hk.
  - apply lookup_empty.
  - rewrite fromEntries_snoc. rewrite map_app, in_app_iff in Hk. simpl in Hk.
    rewrite lookup_insert_ne; [apply IH|]; tauto.
Qed.

(** With distinct keys, the dictionary holds exactly the entries. *)
Lemma fromEntries_lookup_NoDup l k v :
  NoDup (map fst l) → In (k, v) l → fromEntries l !! k = Some v.
Proof.
  induction l as [|[k' v'] l IH] using rev_ind; intros Hnd Hin.
  - destruct Hin.
  - rewrite fromEntries_snoc. rewrite map_app in Hnd. simpl in Hnd.
    apply NoDup_app in Hnd as (Hl & Hdisj & _).
    apply in_app_iff in Hin as [Hin|[Hin|[]]].
    + assert (k ≠ k') as Hne.
      { intros ->. apply (Hdisj k'); [|by left].
        apply list_elem_of_In, in_map_iff. by exists (k', v). }
      rewrite lookup_insert_ne; [by apply IH|done].
    + injection Hin as -> ->. apply lookup_insert_eq.
Qed.

End FromEntries.

(** An entry read from the dictionary is one of the entries it was built
    from. *)
Lemma fromEntries_lookup_Some_inv {V : Type} (l : list (string * V)) k v :
  fromEntries l !! k = Some v → In (k, v) l.
Proof.
  induction l as [|[k' v'] l IH] using rev_ind.
  - unfold fromEntries. simpl. by rewrite lookup_empty.
  - rewrite fromEntries_snoc, in_app_iff. simpl.
    destruct (decide (k' = k)) as [->|Hne].
    + rewrite lookup_insert_eq. intros [= ->]. right. by left.
    + rewrite lookup_insert_ne by done. intros H. left. by apply IH.
Qed.

(** ** The input-arc indexes *)

Lemma push_arc_lookup {A : Type} (m : gmap string (list A)) key a k :
  default [] (push_arc m key a !! k) =
  default [] (m !! k) ++ (if decide (key = k) then [a] else []).
Proof.
  unfold push_arc. destruct (decide (key = k)) as [->|Hne].
  - by rewrite lookup_insert_eq.
  - rewrite lookup_insert_ne by done. by rewrite app_nil_r.
Qed.

(** The bucket of [k] lists, in order, the edges into [k], provided [k] maps
    to type ['transition']. *)
Lemma indexInArcs_lookup nodeById es k :
  default [] (indexInArcs nodeById es !! k) =
  List.filter (fun e => bool_decide (target e = k ∧
                                      nodeById !! k = Some "transition")) es.
Proof.
  unfold indexInArcs.
  induction es as [|e es IH] using rev_ind.
  - simpl. by rewrite lookup_empty.
  - rewrite foldl_app, List.filter_app. simpl.
    destruct (decide (nodeById !! target e = Some "transition")) as [Ht|Ht].
    + rewrite push_arc_lookup, IH. f_equal.
      destruct (decide (target e = k)) as [<-|Hne].
      * by rewrite bool_decide_eq_true_2.
      * rewrite bool_decide_eq_false_2; [done|]. intros [? _]. done.
    + rewrite IH. rewrite bool_decide_eq_false_2; [by rewrite app_nil_r|].
      intros [<- ?]. done.
Qed.

(** The bucket of [k] in the panel's index: the arcs into [k] from a place
    of the net, provided [k] is a transition of the net. *)
Lemma indexNetArcs_lookup placeIds transIds l k :
  default [] (indexNetArcs placeIds transIds l !! k) =
  List.filter (fun a => bool_decide (dst a = k ∧ k ∈ transIds ∧
                                      src a ∈ placeIds)) l.
Proof.
  unfold indexNetArcs.
  induction l as [|a l IH] using rev_ind.
  - simpl. by rewrite lookup_empty.
  - rewrite foldl_app, List.filter_app. simpl.
    destruct (decide (dst a ∈ transIds ∧ src a ∈ placeIds)) as [Ht|Ht].
    + rewrite push_arc_lookup, IH. f_equal.
      destruct (decide (dst a = k)) as [<-|Hne].
      * by rewrite bool_decide_eq_true_2.
      * rewrite bool_decide_eq_false_2; [done|]. intros [? _]. done.
    + rewrite IH. rewrite bool_decide_eq_false_2; [by rewrite app_nil_r|].
      intros (<- & ? & ?). apply Ht. done.
Qed.

(** ** Reads that may find an inherited member *)

Lemma readKey_own {V : Type} (o : gmap string V) k v :
  o !! k = Some v → readKey o k = Own v.
Proof. unfold readKey. by intros ->. Qed.

Lemma readKey_plain {V : Type} (o : gmap string V) k :
  inherited k = false →
  readKey o k = match o !! k with Some v => Own v | None => Undefined end.
Proof. unfold readKey. by intros ->. Qed.

Lemma readKey_member {V : Type} (o : gmap string V) k :
  o !! k = None → inherited k = true → readKey o k = Member.
Proof. unfold readKey. by intros -> ->. Qed.

Lemma typeIs_lookup o k ty :
  typeIs o k ty = bool_decide (o !! k = Some ty).
Proof.
  unfold typeIs, readKey. destruct (o !! k) as [ty'|].
  - destruct (String.eqb_spec ty' ty) as [->|Hne].
    + by rewrite bool_decide_eq_true_2.
    + rewrite bool_decide_eq_false_2; [done|]. by intros [= ->].
  - rewrite bool_decide_eq_false_2 by done. by destruct (inherited k).
Qed.

Lemma pushArcJs_plain {A : Type} (m : gmap string (list A)) key a :
  inherited key = false → pushArcJs m key a = Some (push_arc m key a).
Proof.
  intros Hk. unfold pushArcJs, push_arc. rewrite readKey_plain by done.
  by destruct (m !! key).
Qed.

Lemma bucketJs_plain {A : Type} (m : gmap string (list A)) key :
  inherited key = false → bucketJs m key = Some (default [] (m !! key)).
Proof.
  intros Hk. unfold bucketJs. rewrite readKey_plain by done.
  by destruct (m !! key).
Qed.

(** Where the name of an inherited member can only meet a positive weight,
    the comparison is the one on own entries. *)
Lemma enoughJs_plain tokens p w :
  (inherited p = true → 0 < w) →
  enoughJs tokens p w = (default 0 (tokens !! p) >=? w).
Proof.
  intros Hw. unfold enoughJs, readKey. destruct (tokens !! p); simpl; [done|].
  destruct (inherited p); [|done].
  symmetry. rewrite Z.geb_leb. apply Z.leb_gt, Hw. done.
Qed.

Lemma forallb_ext_in {A : Type} (f g : A → bool) (l : list A) :
  (∀ x, In x l → f x = g x) → forallb f l = forallb g l.
Proof.
  induction l as [|x l IH]; simpl; [done|]. intros H.
  rewrite (H x) by (by left). rewrite IH; [done|].
  intros y Hy. apply H. by right.
Qed.

Lemma foldl_pointwise {A B : Type} (f g : B → A → B) (l : list A) (b : B) :
  (∀ b a, f b a = g b a) → foldl f b l = foldl g b l.
Proof.
  intros H. revert b. induction l as [|a l IH]; intros b; simpl; [done|].
  by rewrite H, IH.
Qed.

Section FilterJs.
Context {A : Type}.
Implicit Types (p : A → option bool) (q : A → bool) (l : list A).

Lemma filterJs_Some p q l :
  (∀ x, In x l → p x = Some (q x)) → filterJs p l = Some (List.filter q l).
Proof.
  induction l as [|x l IH]; simpl; [done|]. intros H.
  rewrite (H x) by (by left). simpl. rewrite IH; [|intros y Hy; apply H; by right].
  simpl. by destruct (q x).
Qed.

Lemma filterJs_None p l x :
  In x l → p x = None → filterJs p l = None.
Proof.
  induction l as [|y l IH]; simpl; [done|]. intros [->|Hx] Hp.
  - by rewrite Hp.
  - destruct (p y); simpl; [|done]. by rewrite IH.
Qed.

End FilterJs.

Section IndexJs.
Context {A : Type}.
Variables (cond : A → bool) (key : A → string).

(** The loop that files an item under its key, once with the reads of the
    object literal and once on own entries only. *)
Let stepJs (acc : option (gmap string (list A))) (a : A) :=
  inArcs ← acc;
  if cond a then pushArcJs inArcs (key a) a else Some inArcs.

Let step (inArcs : gmap string (list A)) (a : A) :=
  if cond a then push_arc inArcs (key a) a else inArcs.

Lemma index_keys l k bucket :
  foldl step ∅ l !! k = Some bucket →
  ∃ a, In a l ∧ cond a = true ∧ key a = k.
Proof.
  revert bucket. induction l as [|a l IH] using rev_ind; intros bucket.
  - simpl. by rewrite lookup_empty.
  - rewrite foldl_app. simpl. unfold step at 1.
    destruct (cond a) eqn:Hc.
    + unfold push_arc. destruct (decide (key a = k)) as [<-|Hne].
      * intros _. exists a. split_and!; [|done|done].
        apply in_app_iff. right. by left.
      * rewrite lookup_insert_ne by done. intros H.
        destruct (IH _ H) as (b & Hb & ? & ?). exists b.
        split_and!; [|done|done]. apply in_app_iff. by left.
    + intros H. destruct (IH _ H) as (b & Hb & ? & ?). exists b.
      split_and!; [|done|done]. apply in_app_iff. by left.
Qed.

(** The loop throws exactly when an item that is filed has the name of an
    inherited member as its key; otherwise it builds the index on own
    entries. *)
Lemma index_throws l :
  foldl stepJs (Some ∅) l =
  if existsb (fun a => cond a && inherited (key a)) l then None
  else Some (foldl step ∅ l).
Proof.
  induction l as [|a l IH] using rev_ind; [done|].
  rewrite !foldl_app, existsb_app. simpl. rewrite IH.
  unfold stepJs, step in *.
  destruct (existsb _ l) eqn:Hex; simpl; [done|].
  destruct (cond a) eqn:Hc; simpl; [|done].
  destruct (inherited (key a)) eqn:Hk; simpl.
  - unfold pushArcJs. rewrite readKey_member; [done| |done].
    destruct (foldl _ ∅ l !! key a) as [bucket|] eqn:E; [|done].
    apply index_keys in E as (b & Hb & Hcb & Hkb).
    assert (existsb (fun a => cond a && inherited (key a)) l = true) as Ht.
    { apply existsb_exists. exists b. split; [done|].
      by rewrite Hcb, Hkb, Hk. }
    congruence.
  - by apply pushArcJs_plain.
Qed.

(** Items that are not filed do not matter to the loop. *)
Lemma index_filter l :
  foldl stepJs (Some ∅) (List.filter cond l) = foldl stepJs (Some ∅) l.
Proof.
  generalize (Some (∅ : gmap string (list A))) as acc.
  induction l as [|a l IH]; intros acc; simpl; [done|].
  destruct (cond a) eqn:Hc; simpl.
  - apply IH.
  - rewrite IH. f_equal. unfold stepJs. rewrite Hc. by destruct acc.
Qed.

End IndexJs.

Lemma indexInArcsJs_throws nodeById es :
  indexInArcsJs nodeById es =
  if existsb (fun e => typeIs nodeById (target e) "transition" &&
                       inherited (target e)) es
  then None else Some (indexInArcs nodeById es).
Proof.
  unfold indexInArcsJs.
  rewrite (index_throws (fun e => typeIs nodeById (target e) "transition")
                        target es).
  destruct (existsb _ es); [done|]. f_equal. unfold indexInArcs.
  apply foldl_pointwise. intros m e. rewrite typeIs_lookup.
  by destruct (decide (nodeById !! target e = Some "transition"));
    [rewrite bool_decide_eq_true_2|rewrite bool_decide_eq_false_2].
Qed.

Lemma indexNetArcsJs_throws placeIds transIds l :
  indexNetArcsJs placeIds transIds l =
  if existsb (fun a => (bool_decide (dst a ∈ transIds) &&
                        bool_decide (src a ∈ placeIds)) &&
                       inherited (dst a)) l
  then None else Some (indexNetArcs placeIds transIds l).
Proof.
  unfold indexNetArcsJs.
  rewrite (index_throws (fun a => bool_decide (dst a ∈ transIds) &&
                                  bool_decide (src a ∈ placeIds)) dst l).
  destruct (existsb _ l); [done|]. f_equal. unfold indexNetArcs.
  apply foldl_pointwise. intros m a.
  destruct (decide (dst a ∈ transIds ∧ src a ∈ placeIds)) as [[H1 H2]|Hn].
  - by rewrite !bool_decide_eq_true_2.
  - destruct (bool_decide (dst a ∈ transIds)) eqn:E1; [|done].
    destruct (bool_decide (src a ∈ placeIds)) eqn:E2; [|done].
    apply bool_decide_eq_true_1 in E1, E2. by destruct Hn.
Qed.

(** ** Enabled transitions in the editor *)

Lemma nodeById_lookup ns n :
  NoDup (map n_id ns) → n ∈ ns →
  fromEntries (map (fun n => (n_id n, n_type n)) ns) !! n_id n = Some (n_type n).
Proof.
  intros Hnd Hin. apply fromEntries_lookup_NoDup.
  - by rewrite map_map.
  - apply in_map_iff. exists n. split; [done|]. by apply list_elem_of_In.
Qed.

(** What [enabledAtTokens] computes, for node ids that are unique. *)
Lemma enabledAtTokens_spec ns es m t :
  NoDup (map n_id ns) →
  t ∈ enabledAtTokens ns es m ↔ EnabledIn ns es m t.
Proof.
  intros Hnd. unfold enabledAtTokens, EnabledIn. cbv zeta.
  rewrite list_elem_of_In, in_map_iff. split.
  - intros (n & <- & Hn). apply filter_In in Hn as [Hn Hall].
    apply filter_In in Hn as [Hn Hty]. apply String.eqb_eq in Hty.
    apply list_elem_of_In in Hn. split; [by exists n|].
    intros e He Het. rewrite forallb_forall in Hall.
    specialize (Hall e). rewrite indexInArcs_lookup in Hall.
    rewrite filter_In in Hall. unfold tokensAt.
    apply Z.geb_le, Hall. split; [by apply list_elem_of_In|].
    apply bool_decide_eq_true_2. split; [done|].
    rewrite nodeById_lookup by done. by rewrite Hty.
  - intros [(n & Hn & Hty & <-) Hall]. exists n. split; [done|].
    apply filter_In. split.
    + apply filter_In. split; [by apply list_elem_of_In|].
      by apply String.eqb_eq.
    + apply forallb_forall. intros e He.
      rewrite indexInArcs_lookup in He. apply filter_In in He as [He Hd].
      apply bool_decide_eq_true_1 in Hd as [Het _].
      apply Z.geb_le. apply Hall; [by apply list_elem_of_In|done].
Qed.

(** [computeEnabled] is [enabledAtTokens] at the marking collected from the
    place nodes, as lists. *)
Lemma computeEnabled_enabledAtTokens ns es :
  computeEnabled ns es = enabledAtTokens ns es (collectTokensFromNodes ns).
Proof. reflexivity. Qed.

Lemma NoDup_map_filter {A B : Type} (f : A → B) (p : A → bool) (l : list A) :
  NoDup (map f l) → NoDup (map f (List.filter p l)).
Proof.
  induction l as [|x l IH]; simpl; [done|].
  intros Hnd. apply NoDup_cons in Hnd as [Hx Hl].
  destruct (p x); simpl; [|by apply IH].
  apply NoDup_cons. split; [|by apply IH].
  intros Hin. apply Hx. apply list_elem_of_In, in_map_iff in Hin as (y & <- & Hy).
  apply filter_In in Hy as [Hy _].
  apply list_elem_of_In, in_map_iff. by exists y.
Qed.

(** The collected marking reads, at a place node, that node's tokens. *)
Lemma collectTokens_place ns p :
  NoDup (map n_id ns) → p ∈ ns → n_type p = "place" →
  tokensAt (collectTokensFromNodes ns) (n_id p) = node_tokens p.
Proof.
  intros Hnd Hp Hty. unfold tokensAt, collectTokensFromNodes.
  erewrite fromEntries_lookup_NoDup; [done| |].
  - rewrite map_map. simpl. by apply NoDup_map_filter.
  - apply in_map_iff. exists p. split; [done|].
    apply filter_In. split; [by apply list_elem_of_In|].
    simpl. by apply String.eqb_eq.
Qed.

(** The collected marking reads zero at an id that is no place node. *)
Lemma collectTokens_other ns x :
  (∀ p, p ∈ ns → n_type p = "place" → n_id p ≠ x) →
  tokensAt (collectTokensFromNodes ns) x = 0.
Proof.
  intros Hx. unfold tokensAt, collectTokensFromNodes.
  rewrite fromEntries_lookup_None; [done|].
  rewrite map_map. simpl. intros Hin.
  apply in_map_iff in Hin as (p & Hid & Hp).
  apply filter_In in Hp as [Hp Hty]. simpl in Hty.
  apply String.eqb_eq in Hty.
  by apply (Hx p); [apply list_elem_of_In| |].
Qed.

(** ** [computeEnabled] and [enabledAtTokens] with the reads of the source *)

Lemma typed_transition_node ns k :
  fromEntries (map (fun n => (n_id n, n_type n)) ns) !! k = Some "transition" →
  ∃ n, n ∈ ns ∧ n_type n = "transition" ∧ n_id n = k.
Proof.
  intros H. apply fromEntries_lookup_Some_inv, in_map_iff in H
    as (n & [= <- Hty] & Hn).
  exists n. by rewrite list_elem_of_In.
Qed.

(** Whether a transition node is named like an inherited member can be
    checked by running over the nodes. *)
Lemma TransitionIdsPlain_check ns :
  existsb (fun n => String.eqb (n_type n) "transition" && inherited (n_id n)) ns
  = false ↔ TransitionIdsPlain ns.
Proof.
  split.
  - intros Hex n Hn Hty. destruct (inherited (n_id n)) eqn:Hk; [|done].
    assert (existsb (fun n => String.eqb (n_type n) "transition" &&
                              inherited (n_id n)) ns = true) as Ht.
    { apply existsb_exists. exists n. split; [by apply list_elem_of_In|].
      rewrite Hk, andb_true_r. by apply String.eqb_eq. }
    congruence.
  - intros Hp. destruct (existsb _ ns) eqn:E; [|done].
    apply existsb_exists in E as (n & Hn & Hb).
    apply andb_true_iff in Hb as [Hty Hk]. apply String.eqb_eq in Hty.
    apply list_elem_of_In in Hn. rewrite (Hp n Hn Hty) in Hk. done.
Qed.

Lemma SourcesPlain_check es :
  forallb (fun e => negb (inherited (source e)) || (0 <? edge_weight e)) es
  = true → SourcesPlain es.
Proof.
  rewrite forallb_forall. intros H e He Hk.
  specialize (H e (proj1 (list_elem_of_In _ _) He)).
  rewrite Hk in H. simpl in H. by apply Z.ltb_lt.
Qed.

Lemma bad_target_false ns es :
  TransitionIdsPlain ns →
  existsb (fun e => typeIs (fromEntries (map (fun n => (n_id n, n_type n)) ns))
                           (target e) "transition" && inherited (target e)) es
  = false.
Proof.
  intros Hp. destruct (existsb _ es) eqn:E; [|done].
  apply existsb_exists in E as (e & He & Hb).
  apply andb_true_iff in Hb as [Hty Hk]. rewrite typeIs_lookup in Hty.
  apply bool_decide_eq_true_1, typed_transition_node in Hty
    as (n & Hn & Hnt & Hid).
  rewrite <- Hid, (Hp n Hn Hnt) in Hk. done.
Qed.

(** No bucket of the index is filed under the name of an inherited member,
    if the loop has not thrown. *)
Lemma indexInArcs_no_member nodeById es k :
  existsb (fun e => typeIs nodeById (target e) "transition" &&
                    inherited (target e)) es = false →
  inherited k = true → indexInArcs nodeById es !! k = None.
Proof.
  intros Hex Hk.
  destruct (indexInArcs nodeById es !! k) as [bucket|] eqn:E; [|done].
  assert (default [] (indexInArcs nodeById es !! k) = bucket) as Hb
    by (by rewrite E).
  rewrite indexInArcs_lookup in Hb.
  assert (indexInArcs nodeById es =
          foldl (fun m e => if typeIs nodeById (target e) "transition"
                            then push_arc m (target e) e else m) ∅ es) as Hfold.
  { unfold indexInArcs. apply foldl_pointwise. intros m e.
    rewrite typeIs_lookup.
    by destruct (decide (nodeById !! target e = Some "transition"));
      [rewrite bool_decide_eq_true_2|rewrite bool_decide_eq_false_2]. }
  rewrite Hfold in E.
  apply (index_keys (fun e => typeIs nodeById (target e) "transition") target)
    in E as (e & He & Hc & Hkey).
  assert (existsb (fun e => typeIs nodeById (target e) "transition" &&
                            inherited (target e)) es = true) as Ht.
  { apply existsb_exists. exists e. split; [done|]. by rewrite Hc, Hkey, Hk. }
  congruence.
Qed.

(** What [enabledAtTokens] returns when no transition node is named like an
    inherited member. *)
Lemma enabledAtTokensJs_returns ns es tks :
  TransitionIdsPlain ns →
  enabledAtTokensJs ns es tks =
  Some (map n_id
          (List.filter
             (fun tr =>
                forallb (fun a => enoughJs tks (source a) (edge_weight a))
                        (default []
                           (indexInArcs
                              (fromEntries (map (fun n => (n_id n, n_type n)) ns))
                              es !! n_id tr)))
             (List.filter (fun n => String.eqb (n_type n) "transition") ns))).
Proof.
  intros Hp. unfold enabledAtTokensJs. cbv zeta.
  rewrite indexInArcsJs_throws, bad_target_false by done. simpl.
  erewrite filterJs_Some; [done|].
  intros tr Htr. apply filter_In in Htr as [Htr Hty].
  apply String.eqb_eq in Hty. apply list_elem_of_In in Htr.
  by rewrite bucketJs_plain by (by apply Hp).
Qed.

Lemma enabledAtTokensJs_plain ns es tks :
  TransitionIdsPlain ns → SourcesPlain es →
  enabledAtTokensJs ns es tks = Some (enabledAtTokens ns es tks).
Proof.
  intros Hp Hs. rewrite enabledAtTokensJs_returns by done.
  unfold enabledAtTokens. cbv zeta. do 2 f_equal.
  apply List.filter_ext_in. intros tr _. apply forallb_ext_in.
  intros a Ha. rewrite indexInArcs_lookup in Ha.
  apply filter_In in Ha as [Ha _]. apply list_elem_of_In in Ha.
  apply enoughJs_plain. by apply Hs.
Qed.

(** A transition node named like an inherited member makes the call throw,
    and nothing else does. *)
Lemma enabledAtTokensJs_throws ns es tks :
  enabledAtTokensJs ns es tks = None ↔
  ∃ n, n ∈ ns ∧ n_type n = "transition" ∧ inherited (n_id n) = true.
Proof.
  split.
  - intros Hnone.
    destruct (existsb (fun n => String.eqb (n_type n) "transition" &&
                                inherited (n_id n)) ns) eqn:E.
    + apply existsb_exists in E as (n & Hn & Hb).
      apply andb_true_iff in Hb as [Hty Hk]. apply String.eqb_eq in Hty.
      exists n. by rewrite list_elem_of_In.
    + apply TransitionIdsPlain_check in E.
      by rewrite enabledAtTokensJs_returns in Hnone.
  - intros (n & Hn & Hty & Hk). unfold enabledAtTokensJs. cbv zeta.
    rewrite indexInArcsJs_throws.
    destruct (existsb _ es) eqn:E; [done|]. simpl.
    erewrite filterJs_None; [done| |].
    + apply filter_In. split; [by apply list_elem_of_In|].
      by apply String.eqb_eq.
    + unfold bucketJs. by rewrite readKey_member
        by (done || by apply indexInArcs_no_member).
Qed.

Lemma computeEnabledJs_enabledAtTokensJs ns es :
  computeEnabledJs ns es = enabledAtTokensJs ns es (collectTokensFromNodes ns).
Proof. reflexivity. Qed.

Lemma computeEnabledJs_plain ns es :
  TransitionIdsPlain ns → SourcesPlain es →
  computeEnabledJs ns es = Some (computeEnabled ns es).
Proof.
  intros Hp Hs. rewrite computeEnabledJs_enabledAtTokensJs.
  by rewrite enabledAtTokensJs_plain.
Qed.

Lemma computeEnabledJs_throws ns es :
  computeEnabledJs ns es = None ↔
  ∃ n, n ∈ ns ∧ n_type n = "transition" ∧ inherited (n_id n) = true.
Proof.
  rewrite computeEnabledJs_enabledAtTokensJs. apply enabledAtTokensJs_throws.
Qed.

(** C2. On the net that consists of one transition node named
    [constructor] and no edge, [computeEnabled] throws: the read
    [inArcs[tr.id]] finds the inherited member, which has no [every].  The
    transition has no arc into it, so it is enabled under the marking of
    the net, and the enabled set is not empty. *)
Theorem computeEnabled_throws_on_constructor :
  computeEnabledJs constructorNodes [] = None ∧
  EnabledIn constructorNodes [] (collectTokensFromNodes constructorNodes)
            "constructor".
Proof.
  split; [vm_compute; reflexivity|]. split.
  - eexists. split; [apply list_elem_of_here|]. by split.
  - intros e He. by apply elem_of_nil in He.
Qed.

(** For a net whose node ids are unique, none of whose transition nodes
    is named like a member inherited from [Object.prototype], and in which
    an edge starting at such a name has a positive weight, [computeEnabled]
    returns a list that holds, each once, exactly the ids of the
    transitions [t] such that every arc into [t], of weight [w] and source
    [p], finds [marking[p] >= w], where the marking is the one collected
    from the place nodes (the tokens of a place, zero at any other id).  In
    particular a transition with no arc into it is in the list. *)
Theorem computeEnabled_exact (ns : list Node) (es : list Edge) :
  NoDup (map n_id ns) → TransitionIdsPlain ns → SourcesPlain es →
  let marking := collectTokensFromNodes ns in
  ∃ enabledIds,
    computeEnabledJs ns es = Some enabledIds ∧
    (∀ p, p ∈ ns → n_type p = "place" →
          tokensAt marking (n_id p) = node_tokens p) ∧
    (∀ t, t ∈ enabledIds ↔ EnabledIn ns es marking t) ∧
    NoDup enabledIds ∧
    (∀ tr, tr ∈ ns → n_type tr = "transition" →
           (∀ e, e ∈ es → target e ≠ n_id tr) →
           n_id tr ∈ enabledIds).
Proof.
  intros Hnd Hp Hs marking. exists (computeEnabled ns es).
  split; [by apply computeEnabledJs_plain|]. split; [|split; [|split]].
  - intros p Hpl Hty. by apply collectTokens_place.
  - intros t. rewrite computeEnabled_enabledAtTokens.
    by apply enabledAtTokens_spec.
  - unfold computeEnabled. cbv zeta. by do 2 apply NoDup_map_filter.
  - intros tr Htr Hty Hno. rewrite computeEnabled_enabledAtTokens.
    apply enabledAtTokens_spec; [done|]. split; [by exists tr|].
    intros e He Het. by destruct (Hno e He).
Qed.

Lemma demoNodes_NoDup : NoDup (map n_id demoNodes).
Proof. apply (bool_decide_unpack _). vm_compute. reflexivity. Qed.

Lemma demoNodes_plain : TransitionIdsPlain demoNodes.
Proof. apply TransitionIdsPlain_check. vm_compute. reflexivity. Qed.

Lemma demoEdges_plain : SourcesPlain demoEdges.
Proof. apply SourcesPlain_check. vm_compute. reflexivity. Qed.

Lemma computeEnabled_exact_witness :
  ∃ enabledIds,
    computeEnabledJs demoNodes demoEdges = Some enabledIds ∧
    (∀ p, p ∈ demoNodes → n_type p = "place" →
          tokensAt (collectTokensFromNodes demoNodes) (n_id p) = node_tokens p) ∧
    (∀ t, t ∈ enabledIds ↔
          EnabledIn demoNodes demoEdges (collectTokensFromNodes demoNodes) t) ∧
    NoDup enabledIds ∧
    (∀ tr, tr ∈ demoNodes → n_type tr = "transition" →
           (∀ e, e ∈ demoEdges → target e ≠ n_id tr) →
           n_id tr ∈ enabledIds).
Proof.
  exact (computeEnabled_exact demoNodes demoEdges
           demoNodes_NoDup demoNodes_plain demoEdges_plain).
Defined.

(** [enabledAtTokens] reads the marking only through [tks[p] ?? 0]: an
    entry that is missing and an entry that is zero give the same answer. *)
Lemma enabledAtTokens_ext ns es m1 m2 :
  (∀ p, tokensAt m1 p = tokensAt m2 p) →
  enabledAtTokens ns es m1 = enabledAtTokens ns es m2.
Proof.
  intros Hm. unfold enabledAtTokens. cbv zeta. f_equal.
  apply List.filter_ext. intros tr.
  induction (default [] (_ !! n_id tr)) as [|a l IH]; simpl; [done|].
  unfold tokensAt in Hm. by rewrite Hm, IH.
Qed.

(** C9. On the same nodes and edges, [computeEnabled] and [enabledAtTokens]
    at the marking that maps each place node's id to its token count return
    the same transition ids (the same list, hence the same set). *)
Theorem computeEnabled_agrees_enabledAtTokens (ns : list Node) (es : list Edge) :
  computeEnabled ns es = enabledAtTokens ns es (collectTokensFromNodes ns) ∧
  ∀ t, t ∈ computeEnabled ns es ↔
       t ∈ enabledAtTokens ns es (collectTokensFromNodes ns).
Proof.
  assert (computeEnabled ns es
          = enabledAtTokens ns es (collectTokensFromNodes ns)) as Heq.
  { unfold computeEnabled, enabledAtTokens, collectTokensFromNodes, isP.
    reflexivity. }
  split; [exact Heq|]. intros t. by rewrite Heq.
Qed.

(** ** Per-place verdicts *)

Lemma pid_placeVerdict k hit p maxSeen :
  pid (placeVerdict k hit (p, maxSeen)) = p.
Proof. unfold placeVerdict. by destruct (negb (Js.isFinite k)), (negb hit). Qed.

(** Each row of [placeVerdicts] comes from one entry of [place_max]. *)
Lemma placeVerdicts_row r k pv :
  pv ∈ placeVerdicts (Some r) k →
  ∃ maxSeen, (pid pv, maxSeen) ∈ place_max r ∧
             pv = placeVerdict k (hit_limits r) (pid pv, maxSeen).
Proof.
  simpl. rewrite list_elem_of_In, in_map_iff.
  intros ([p mx] & <- & Hin). exists mx.
  apply list_elem_of_In in Hin.
  by rewrite pid_placeVerdict.
Qed.

(** The rows follow the entries of [place_max] one by one: the row at a
    position is the verdict on the entry at that position. *)
Lemma placeVerdicts_lookup r k (i : nat) :
  placeVerdicts (Some r) k !! i =
  placeVerdict k (hit_limits r) <$> place_max r !! i.
Proof.
  simpl. revert i. induction (place_max r) as [|e l IH]; intros [|i]; simpl;
    done.
Qed.

Lemma placeVerdicts_length r k :
  length (placeVerdicts (Some r) k) = length (place_max r).
Proof. simpl. apply length_map. Qed.

(** C1. When the search was cut short ([hit_limits] true), there is one row
    for each place of the answer, in the order of the answer, and no other
    row.  The verdict in the row of a place is never [Yes] and is [No] only
    if the observed maximum of that place exceeds [k]; for a finite [k] it
    is [No] exactly when the observed maximum exceeds [k], and [Unknown]
    whenever the observed maximum is at most [k]. *)
Theorem cut_short_verdicts (r : KResult) (k : Js.num) :
  hit_limits r = true →
  length (placeVerdicts (Some r) k) = length (place_max r) ∧
  ∀ (i : nat) (p : string) (maxSeen : Q),
    place_max r !! i = Some (p, maxSeen) →
    ∃ pv,
      placeVerdicts (Some r) k !! i = Some pv ∧
      pid pv = p ∧
      verdict pv ≠ Yes ∧
      (verdict pv = No → Js.gt (Js.Num maxSeen) k = true) ∧
      ∀ kq, k = Js.Num kq →
            (verdict pv = No ↔ (kq < maxSeen)%Q) ∧
            ((maxSeen <= kq)%Q → verdict pv = Unknown).
Proof.
  intros Hhit. split; [apply placeVerdicts_length|].
  intros i p mx Hi. exists (placeVerdict k true (p, mx)).
  split; [by rewrite placeVerdicts_lookup, Hi, Hhit|].
  split; [apply pid_placeVerdict|].
  destruct k as [kq| | |]; simpl; try by (split_and!; [done|done|intros ? [=]]).
  destruct (Qle_bool mx kq) eqn:E; simpl.
  - apply Qle_bool_iff in E. split_and!; [done|done|].
    intros ? [= <-]. split; [split; [done|]|done].
    intros Hlt. exfalso. exact (Qlt_not_le _ _ Hlt E).
  - assert (kq < mx)%Q as Hlt.
    { apply Qnot_le_lt. intros Hle. apply Qle_bool_iff in Hle. congruence. }
    split_and!; [done|done|]. intros ? [= <-]. split; [done|].
    intros Hle. exfalso. exact (Qlt_not_le _ _ Hlt Hle).
Qed.

Lemma cut_short_verdicts_witness :
  length (placeVerdicts (Some (demoResult true)) (Js.Num (1 # 1))) =
  length (place_max (demoResult true)) ∧
  ∃ pv,
    placeVerdicts (Some (demoResult true)) (Js.Num (1 # 1)) !! 0%nat = Some pv ∧
    pid pv = "P1" ∧
    verdict pv ≠ Yes ∧
    (verdict pv = No → Js.gt (Js.Num (2 # 1)) (Js.Num (1 # 1)) = true) ∧
    ∀ kq, Js.Num (1 # 1) = Js.Num kq →
          (verdict pv = No ↔ (kq < 2 # 1)%Q) ∧
          ((2 # 1 <= kq)%Q → verdict pv = Unknown).
Proof.
  split.
  - exact (proj1 (cut_short_verdicts (demoResult true) (Js.Num (1 # 1))
                    eq_refl)).
  - exact (proj2 (cut_short_verdicts (demoResult true) (Js.Num (1 # 1))
                    eq_refl) 0%nat "P1" (2 # 1) eq_refl).
Defined.

(** C7. When the whole state space was explored ([hit_limits] false) and [k]
    is finite, there is one row for each place of the answer, in the order
    of the answer, and no other row.  The verdict in the row of a place is
    [Yes] exactly when the observed maximum of that place is at most [k],
    and [No] otherwise. *)
Theorem exact_verdicts (r : KResult) (kq : Q) :
  hit_limits r = false →
  length (placeVerdicts (Some r) (Js.Num kq)) = length (place_max r) ∧
  ∀ (i : nat) (p : string) (maxSeen : Q),
    place_max r !! i = Some (p, maxSeen) →
    ∃ pv,
      placeVerdicts (Some r) (Js.Num kq) !! i = Some pv ∧
      pid pv = p ∧
      (verdict pv = Yes ↔ (maxSeen <= kq)%Q) ∧
      (verdict pv = No ↔ ¬ (maxSeen <= kq)%Q) ∧
      (verdict pv = Yes ∨ verdict pv = No).
Proof.
  intros Hhit. split; [apply placeVerdicts_length|].
  intros i p mx Hi. exists (placeVerdict (Js.Num kq) false (p, mx)).
  split; [by rewrite placeVerdicts_lookup, Hi, Hhit|].
  split; [apply pid_placeVerdict|]. simpl.
  destruct (Qle_bool mx kq) eqn:E.
  - apply Qle_bool_iff in E. split_and!; [done| |by left].
    split; [done|]. intros Hn. by destruct Hn.
  - assert (¬ (mx <= kq)%Q) as Hn.
    { intros Hle. apply Qle_bool_iff in Hle. congruence. }
    split_and!; [|done|by right]. split; [done|]. intros Hle. by destruct Hn.
Qed.

Lemma exact_verdicts_witness :
  length (placeVerdicts (Some (demoResult false)) (Js.Num (1 # 1))) =
  length (place_max (demoResult false)) ∧
  ∃ pv,
    placeVerdicts (Some (demoResult false)) (Js.Num (1 # 1)) !! 1%nat = Some pv ∧
    pid pv = "P2" ∧
    (verdict pv = Yes ↔ (0 # 1 <= 1 # 1)%Q) ∧
    (verdict pv = No ↔ ¬ (0 # 1 <= 1 # 1)%Q) ∧
    (verdict pv = Yes ∨ verdict pv = No).
Proof.
  split.
  - exact (proj1 (exact_verdicts (demoResult false) (1 # 1) eq_refl)).
  - exact (proj2 (exact_verdicts (demoResult false) (1 # 1) eq_refl)
             1%nat "P2" (0 # 1) eq_refl).
Defined.

Example demo_enabled : computeEnabled demoNodes demoEdges = ["T1"].
Proof. vm_compute. reflexivity. Qed.

(** ** The history recorder *)

Lemma goTo_accepted st i step :
  0 <= i → history st !! Z.to_nat i = Some step →
  goTo i st = applyStep step (set_hIndex i (set_autoRun false st)).
Proof.
  intros Hi Hstep. unfold goTo. rewrite Hstep.
  apply lookup_lt_Some in Hstep.
  destruct (i <? 0) eqn:E1; [lia|].
  destruct (Z.of_nat (length (history st)) <=? i) eqn:E2; [lia|done].
Qed.

Lemma goTo_rejected st i :
  ¬ (0 <= i < Z.of_nat (length (history st))) → goTo i st = st.
Proof.
  intros Hi. unfold goTo.
  destruct (i <? 0) eqn:E1; [done|].
  destruct (Z.of_nat (length (history st)) <=? i) eqn:E2; [done|lia].
Qed.

Lemma goTo_history st i : history (goTo i st) = history st.
Proof.
  unfold goTo. destruct (_ || _); [done|]. by destruct (history st !! _).
Qed.

Lemma goTo_hIndex st i :
  0 <= i < Z.of_nat (length (history st)) → hIndex (goTo i st) = i.
Proof.
  intros Hi.
  destruct (lookup_lt_is_Some_2 (history st) (Z.to_nat i)) as [step Hstep];
    [lia|].
  by rewrite (goTo_accepted st i step) by (done || lia).
Qed.

(** C6. [goTo i] never touches the entries of the history; for
    [0 <= i < length] it puts the cursor on [i], and for any other [i] it
    leaves the whole state as it was. *)
Theorem goTo_moves_cursor_only (st : AppState) (i : Z) :
  history (goTo i st) = history st ∧
  (0 <= i < Z.of_nat (length (history st)) → hIndex (goTo i st) = i) ∧
  (¬ (0 <= i < Z.of_nat (length (history st))) → goTo i st = st).
Proof.
  split; [apply goTo_history|]. split; [apply goTo_hIndex|apply goTo_rejected].
Qed.

Lemma goTo_moves_cursor_only_witness :
  hIndex (goTo 0 recordedState) = 0 ∧ goTo 2 recordedState = recordedState.
Proof.
  split.
  - apply (proj1 (proj2 (goTo_moves_cursor_only recordedState 0))).
    simpl. lia.
  - apply (proj2 (proj2 (goTo_moves_cursor_only recordedState 2))).
    simpl. lia.
Defined.

(** C4. After [goTo i] on a history that has an entry [i], appending a step
    gives a history of length [i + 2]: entries [0..i] as before, the new
    step at [i + 1], nothing beyond it, and the cursor on [i + 1]. *)
Theorem goTo_then_append_branches (st : AppState) (i : Z) (newStep : Step) :
  0 <= i < Z.of_nat (length (history st)) →
  let st' := appendHistory newStep (commit (goTo i st)) in
  history st' = take (Z.to_nat i + 1) (history st) ++ [newStep] ∧
  Z.of_nat (length (history st')) = i + 2 ∧
  (∀ j, (j <= Z.to_nat i)%nat → history st' !! j = history st !! j) ∧
  history st' !! (Z.to_nat i + 1)%nat = Some newStep ∧
  (∀ j, (Z.to_nat i + 1 < j)%nat → history st' !! j = None) ∧
  hIndex st' = i + 1.
Proof.
  intros Hi st'.
  assert (history st' = take (Z.to_nat i + 1) (history st) ++ [newStep]) as Hh.
  { subst st'. unfold appendHistory, commit. simpl.
    rewrite goTo_hIndex, goTo_history by done.
    destruct (0 <=? i) eqn:E; [|lia].
    by replace (Z.to_nat (i + 1)) with (Z.to_nat i + 1)%nat by lia. }
  assert (length (take (Z.to_nat i + 1) (history st)) = (Z.to_nat i + 1)%nat)
    as Hlen by (rewrite length_take; lia).
  split_and!.
  - done.
  - rewrite Hh, length_app, Hlen. simpl. lia.
  - intros j Hj. rewrite Hh, lookup_app_l by lia.
    apply lookup_take_lt. lia.
  - rewrite Hh, lookup_app_r by lia. by rewrite Hlen, Nat.sub_diag.
  - intros j Hj. rewrite Hh. apply lookup_ge_None.
    rewrite length_app, Hlen. simpl. lia.
  - subst st'. unfold appendHistory, commit. simpl. by rewrite goTo_hIndex.
Qed.

Lemma goTo_then_append_branches_witness :
  let newStep := {| fired := Some "T9"; step_tokens := ∅; ts := 2000 |} in
  let st' := appendHistory newStep (commit (goTo 0 recordedState)) in
  0 <= 0 < Z.of_nat (length (history recordedState)) ∧
  length (history st') = 2%nat ∧
  history st' !! 1%nat = Some newStep ∧
  hIndex st' = 1.
Proof.
  intros newStep st'.
  assert (0 <= 0 < Z.of_nat (length (history recordedState))) as Hi
    by (simpl; lia).
  destruct (goTo_then_append_branches recordedState 0 newStep Hi)
    as (_ & Hlen & _ & Hnew & _ & Hcur).
  split; [exact Hi|]. split; [|split; [exact Hnew|exact Hcur]].
  apply Nat2Z.inj. exact Hlen.
Defined.

(** ** Firing *)

Lemma ensureHistoryInit_nonempty now st :
  history st ≠ [] → ensureHistoryInit now st = st.
Proof. unfold ensureHistoryInit. by destruct (history st). Qed.

Lemma ensureHistoryInit_empty now st :
  history st = [] →
  history (ensureHistoryInit now st)
  = [ {| fired := None; step_tokens := collectTokensFromNodes (nodes st);
         ts := now |} ] ∧
  hIndex (ensureHistoryInit now st) = 0.
Proof. unfold ensureHistoryInit. by intros ->. Qed.

(** C3, as the code has it. A [fire] whose request fails leaves the nodes
    (hence the marking) and the edges as they were and records no firing.
    A history that was not empty, and its cursor, are exactly as before;
    an empty history has been initialised to the single entry for the
    marking before the call, with the cursor on it.  A call made while
    another firing is in flight changes nothing. *)
Theorem failed_fire_frame (st : AppState) (tid message : string)
  (now0 now1 : Z) :
  let st' := fire tid (Failed message) now0 now1 st in
  nodes st' = nodes st ∧ edges st' = edges st ∧
  (history st ≠ [] → history st' = history st ∧ hIndex st' = hIndex st) ∧
  (history st = [] → isFiring st = false →
     history st'
     = [ {| fired := None; step_tokens := collectTokensFromNodes (nodes st);
            ts := now0 |} ] ∧
     hIndex st' = 0) ∧
  (isFiring st = true → st' = st).
Proof.
  intros st'. subst st'. unfold fire.
  destruct (isFiring st) eqn:Hf.
  { split_and!; done. }
  simpl. split_and!.
  - unfold ensureHistoryInit. simpl. by destruct (history st).
  - unfold ensureHistoryInit. simpl. by destruct (history st).
  - intros Hne. rewrite ensureHistoryInit_nonempty by done. done.
  - intros He _. unfold ensureHistoryInit. simpl. by rewrite He.
  - done.
Qed.

Lemma failed_fire_frame_witness :
  let st' := fire "T1" (Failed "Request failed") 1500 1600 recordedState in
  history st' = history recordedState ∧ hIndex st' = hIndex recordedState.
Proof.
  intros st'.
  apply (proj1 (proj2 (proj2
           (failed_fire_frame recordedState "T1" "Request failed" 1500 1600)))).
  simpl. discriminate.
Defined.

(** C3, as stated, fails on a state without history: the failed call has
    created the initial entry. *)
Lemma failed_fire_creates_history :
  history (fire "T1" (Failed "Request failed") 1500 1600 freshState)
  ≠ history freshState.
Proof. simpl. discriminate. Qed.

(** ** Editing handlers and the history *)

Lemma clearHistory_clears st :
  history (clearHistory st) = [] ∧ hIndex (clearHistory st) = -1.
Proof. done. Qed.

(** Adding a node, deleting by id and connecting two nodes end in
    [clearHistory]. *)
Lemma adding_and_removing_clear addEdge st id src tgt :
  history (addPlace st) = [] ∧ history (addTransition st) = [] ∧
  history (deleteById id st) = [] ∧
  (edges (onConnect addEdge src tgt st) ≠ edges st →
   history (onConnect addEdge src tgt st) = []).
Proof.
  split_and!; try done.
  unfold onConnect. by destruct (negb _).
Qed.

(** [updateSelected] writes nodes or edges and nothing else. *)
Lemma updateSelected_history d st :
  history (updateSelected d st) = history st ∧
  hIndex (updateSelected d st) = hIndex st.
Proof.
  unfold updateSelected.
  destruct (selectedId st ≫= _) as [se|]; [done|].
  by destruct (selectedId st ≫= _) as [sn|].
Qed.

(** C5 on the code: with the arc [A1] selected and two steps recorded,
    setting the weight of [A1] to 2 changes the edges and keeps both steps
    and the cursor. *)
Theorem weight_edit_keeps_history :
  let st' := updateSelected weightTwo arcSelectedState in
  edges st' ≠ edges arcSelectedState ∧
  map edge_weight (edges st') = [2; 1] ∧
  history st' = history arcSelectedState ∧
  length (history st') = 2%nat ∧
  hIndex st' = 1.
Proof. simpl. split_and!; done. Qed.

(** ** The state analysis of the panel *)

(** What [localAnalyze] lists as enabled. *)
Lemma localAnalyze_enabled net marking t :
  t ∈ shown_enabled (localAnalyze net marking) ↔
  EnabledInNet net (default ∅ marking) t.
Proof.
  unfold localAnalyze, EnabledInNet. simpl.
  rewrite !list_elem_of_In, in_map_iff. split.
  - intros (tr & <- & Htr). apply filter_In in Htr as [Htr Hall].
    split; [apply in_map_iff; by exists tr|].
    intros a Ha Hdst Hsrc. rewrite forallb_forall in Hall.
    specialize (Hall a). rewrite indexNetArcs_lookup, filter_In in Hall.
    unfold tokensAt. apply Z.geb_le, Hall.
    split; [by apply list_elem_of_In|].
    apply bool_decide_eq_true_2. split_and!; [done| |].
    + apply elem_of_list_to_set, list_elem_of_In, in_map_iff. by exists tr.
    + by apply elem_of_list_to_set.
  - intros [Ht Hall]. apply in_map_iff in Ht as (tr & <- & Htr).
    exists tr. split; [done|]. apply filter_In. split; [done|].
    apply forallb_forall. intros a Ha.
    rewrite indexNetArcs_lookup in Ha. apply filter_In in Ha as [Ha Hd].
    apply bool_decide_eq_true_1 in Hd as (Hdst & _ & Hsrc).
    apply elem_of_list_to_set in Hsrc.
    apply Z.geb_le. apply Hall; [by apply list_elem_of_In|done|done].
Qed.

(** ** [localAnalyze] with the reads of the source *)

Lemma NetTransitionIdsPlain_check net :
  existsb (fun t => inherited (t_id t)) (transitions net) = false ↔
  NetTransitionIdsPlain net.
Proof.
  split.
  - intros Hex t Ht. destruct (inherited (t_id t)) eqn:Hk; [|done].
    assert (existsb (fun t => inherited (t_id t)) (transitions net) = true)
      as Hb.
    { apply existsb_exists. exists t. split; [by apply list_elem_of_In|done]. }
    congruence.
  - intros Hp. destruct (existsb _ _) eqn:E; [|done].
    apply existsb_exists in E as (t & Ht & Hk).
    apply list_elem_of_In in Ht. rewrite (Hp t Ht) in Hk. done.
Qed.

Lemma NetSourcesPlain_check net :
  forallb (fun a => negb (inherited (src a)) || (0 <? default 1 (a_weight a)))
          (arcs net) = true → NetSourcesPlain net.
Proof.
  rewrite forallb_forall. intros H a Ha Hk.
  specialize (H a (proj1 (list_elem_of_In _ _) Ha)).
  rewrite Hk in H. simpl in H. by apply Z.ltb_lt.
Qed.

Lemma bad_dst_false net :
  NetTransitionIdsPlain net →
  existsb
    (fun a =>
       (bool_decide
          (dst a ∈ (list_to_set (map t_id (transitions net)) : gset string)) &&
        bool_decide
          (src a ∈ (list_to_set (map p_id (places net)) : gset string))) &&
       inherited (dst a))
    (arcs net) = false.
Proof.
  intros Hp. destruct (existsb _ _) eqn:E; [|done].
  apply existsb_exists in E as (a & Ha & Hb).
  apply andb_true_iff in Hb as [Hc Hk]. apply andb_true_iff in Hc as [Hd _].
  apply bool_decide_eq_true_1, elem_of_list_to_set, list_elem_of_In,
    in_map_iff in Hd as (t & Hid & Ht).
  apply list_elem_of_In in Ht. rewrite <- Hid, (Hp t Ht) in Hk. done.
Qed.

Lemma indexNetArcs_no_member placeIds transIds l k :
  existsb (fun a => (bool_decide (dst a ∈ transIds) &&
                     bool_decide (src a ∈ placeIds)) &&
                    inherited (dst a)) l = false →
  inherited k = true → indexNetArcs placeIds transIds l !! k = None.
Proof.
  intros Hex Hk.
  destruct (indexNetArcs placeIds transIds l !! k) as [bucket|] eqn:E; [|done].
  assert (indexNetArcs placeIds transIds l =
          foldl (fun m a => if bool_decide (dst a ∈ transIds) &&
                               bool_decide (src a ∈ placeIds)
                            then push_arc m (dst a) a else m) ∅ l) as Hfold.
  { unfold indexNetArcs. apply foldl_pointwise. intros m a.
    destruct (decide (dst a ∈ transIds ∧ src a ∈ placeIds)) as [[H1 H2]|Hn].
    - by rewrite !bool_decide_eq_true_2.
    - destruct (bool_decide (dst a ∈ transIds)) eqn:E1; [|done].
      destruct (bool_decide (src a ∈ placeIds)) eqn:E2; [|done].
      apply bool_decide_eq_true_1 in E1, E2. by destruct Hn. }
  rewrite Hfold in E.
  apply (index_keys (fun a => bool_decide (dst a ∈ transIds) &&
                              bool_decide (src a ∈ placeIds)) dst)
    in E as (a & Ha & Hc & Hkey).
  assert (existsb (fun a => (bool_decide (dst a ∈ transIds) &&
                             bool_decide (src a ∈ placeIds)) &&
                            inherited (dst a)) l = true) as Ht.
  { apply existsb_exists. exists a. split; [done|]. by rewrite Hc, Hkey, Hk. }
  congruence.
Qed.

(** What [localAnalyze] shows when no transition of the net is named like an
    inherited member. *)
Lemma localAnalyzeJs_returns net marking :
  NetTransitionIdsPlain net →
  localAnalyzeJs net marking =
  Some
    (let en :=
       map t_id
         (List.filter
            (fun t =>
               forallb (arcSatisfiedJs (default ∅ marking))
                       (default []
                          (indexNetArcs (list_to_set (map p_id (places net)))
                                        (list_to_set (map t_id (transitions net)))
                                        (arcs net) !! t_id t)))
            (transitions net)) in
     {| shown_enabled := en;
        shown_deadlocked := (length en =? 0)%nat;
        serverMarking := default ∅ marking |}).
Proof.
  intros Hp. unfold localAnalyzeJs. cbv zeta.
  rewrite indexNetArcsJs_throws, bad_dst_false by done. simpl.
  erewrite filterJs_Some; [done|].
  intros t Ht. apply list_elem_of_In in Ht.
  by rewrite bucketJs_plain by (by apply Hp).
Qed.

Lemma localAnalyzeJs_plain net marking :
  NetTransitionIdsPlain net → NetSourcesPlain net →
  localAnalyzeJs net marking = Some (localAnalyze net marking).
Proof.
  intros Hp Hs. rewrite localAnalyzeJs_returns by done.
  unfold localAnalyze. cbv zeta.
  assert (∀ t, forallb (arcSatisfiedJs (default ∅ marking))
                 (default []
                    (indexNetArcs (list_to_set (map p_id (places net)))
                                  (list_to_set (map t_id (transitions net)))
                                  (arcs net) !! t_id t))
               = forallb (arcSatisfied (default ∅ marking))
                   (default []
                      (indexNetArcs (list_to_set (map p_id (places net)))
                                    (list_to_set (map t_id (transitions net)))
                                    (arcs net) !! t_id t))) as Hext.
  { intros t. apply forallb_ext_in. intros a Ha.
    rewrite indexNetArcs_lookup in Ha. apply filter_In in Ha as [Ha _].
    apply list_elem_of_In in Ha. apply enoughJs_plain. by apply Hs. }
  by rewrite (List.filter_ext _ _ Hext).
Qed.

(** A transition named like an inherited member makes [localAnalyze] throw,
    and nothing else does. *)
Lemma localAnalyzeJs_throws net marking :
  localAnalyzeJs net marking = None ↔
  ∃ t, t ∈ transitions net ∧ inherited (t_id t) = true.
Proof.
  split.
  - intros Hnone.
    destruct (existsb (fun t => inherited (t_id t)) (transitions net)) eqn:E.
    + apply existsb_exists in E as (t & Ht & Hk). exists t.
      by rewrite list_elem_of_In.
    + apply NetTransitionIdsPlain_check in E.
      by rewrite localAnalyzeJs_returns in Hnone.
  - intros (t & Ht & Hk). unfold localAnalyzeJs. cbv zeta.
    rewrite indexNetArcsJs_throws.
    destruct (existsb _ (arcs net)) eqn:E; [done|]. simpl.
    erewrite filterJs_None; [done| |].
    + by apply list_elem_of_In.
    + unfold bucketJs. by rewrite readKey_member
        by (done || by apply indexNetArcs_no_member).
Qed.

(** Dangling arcs are not seen by [localAnalyze]: with or without them it
    shows the same, or throws alike. *)
Lemma localAnalyzeJs_withoutDangling net marking :
  localAnalyzeJs net marking = localAnalyzeJs (withoutDangling net) marking.
Proof.
  unfold localAnalyzeJs. cbv zeta. simpl. f_equal.
  unfold indexNetArcsJs.
  rewrite <- (index_filter
                (fun a =>
                   bool_decide
                     (dst a ∈ (list_to_set (map t_id (transitions net))
                               : gset string)) &&
                   bool_decide
                     (src a ∈ (list_to_set (map p_id (places net))
                               : gset string)))
                dst (arcs net)).
  f_equal. apply List.filter_ext. intros a. f_equal.
  - apply bool_decide_ext. by rewrite elem_of_list_to_set.
  - apply bool_decide_ext. by rewrite elem_of_list_to_set.
Qed.

Lemma withoutDangling_arcs net a :
  a ∈ arcs (withoutDangling net) ↔ a ∈ arcs net ∧ ¬ dangling net a.
Proof.
  unfold withoutDangling, dangling. simpl.
  rewrite list_elem_of_In, filter_In, andb_true_iff, !bool_decide_eq_true,
    <- list_elem_of_In.
  split.
  - intros [Ha [Hd Hs]]. split; [done|]. by intros [?|?].
  - intros [Ha Hn]. split; [done|]. split.
    + destruct (decide (dst a ∈ map t_id (transitions net))); [done|].
      destruct Hn. by right.
    + destruct (decide (src a ∈ map p_id (places net))); [done|].
      destruct Hn. by left.
Qed.


(** Take a net none of whose transitions is named like a member
    inherited from [Object.prototype] and in which an arc starting at such a
    name has a positive weight.  The local state analysis, which is what the
    panel runs when the request fails, then shows as enabled exactly the
    transitions enabled under the marking it was given, and shows a deadlock
    exactly when that list is empty, that is, when no transition is enabled
    under that marking: nothing but the given marking is looked at.  On an
    answer of the backend that lists the transitions enabled under the
    marking and flags no deadlock while one is enabled, the panel shows the
    same: that list, and a deadlock exactly when it is empty. *)
Theorem deadlock_is_local (net : Net) (marking : option (gmap string Z)) :
  let m := default ∅ marking in
  (NetTransitionIdsPlain net → NetSourcesPlain net →
   ∃ r, localAnalyzeJs net marking = Some r ∧
        analyzeStateJs None net marking = Some r ∧
        (∀ t, t ∈ shown_enabled r ↔ EnabledInNet net m t) ∧
        (shown_deadlocked r = true ↔ shown_enabled r = []) ∧
        (shown_deadlocked r = true ↔ ∀ t, ¬ EnabledInNet net m t)) ∧
  (∀ data, AnswerFor net m data →
     ∃ r, analyzeStateJs (Some data) net marking = Some r ∧
          (∀ t, t ∈ shown_enabled r ↔ EnabledInNet net m t) ∧
          (shown_deadlocked r = true ↔ shown_enabled r = []) ∧
          (shown_deadlocked r = true ↔ ∀ t, ¬ EnabledInNet net m t)).
Proof.
  intros m.
  assert (∀ r : PanelState,
            (∀ t, t ∈ shown_enabled r ↔ EnabledInNet net m t) →
            (shown_enabled r = [] ↔ ∀ t, ¬ EnabledInNet net m t)) as Hnone.
  { intros r Hen. split.
    - intros Hnil t Ht. apply Hen in Ht. rewrite Hnil in Ht.
      by apply elem_of_nil in Ht.
    - intros Hno. destruct (shown_enabled r) as [|t l] eqn:E; [done|].
      destruct (Hno t). apply Hen. apply list_elem_of_here. }
  split.
  - intros Hp Hs. exists (localAnalyze net marking).
    assert (∀ t, t ∈ shown_enabled (localAnalyze net marking) ↔
                 EnabledInNet net m t) as Hen
      by (intros t; apply localAnalyze_enabled).
    assert (shown_deadlocked (localAnalyze net marking) = true ↔
            shown_enabled (localAnalyze net marking) = []) as Hdead.
    { unfold localAnalyze. simpl. rewrite Nat.eqb_eq.
      split; [apply nil_length_inv|by intros ->]. }
    split_and!; [by apply localAnalyzeJs_plain|by apply localAnalyzeJs_plain
                |done|done|].
    rewrite Hdead. by apply Hnone.
  - intros data [Hlist Hflag]. exists (showAnswer data marking).
    assert (shown_deadlocked (showAnswer data marking) = true ↔
            shown_enabled (showAnswer data marking) = []) as Hdead.
    { unfold showAnswer. cbn [shown_deadlocked shown_enabled].
      rewrite orb_true_iff, Nat.eqb_eq. split.
      - intros [Hf|Hl]; [|by apply nil_length_inv].
        destruct (default [] (ans_enabled data)) as [|t l] eqn:E; [done|].
        destruct (Hflag Hf t). apply Hlist. apply list_elem_of_here.
      - intros ->. by right. }
    split_and!; [done|done|done|].
    rewrite Hdead. by apply Hnone.
Qed.

(** The flag of an answer is shown as it comes: the panel does not check it
    against the list of the same answer. *)
Example flagged_answer_is_shown :
  shown_deadlocked (showAnswer flaggedAnswer None) = true ∧
  shown_enabled (showAnswer flaggedAnswer None) = ["T1"].
Proof. split; reflexivity. Qed.

Lemma demoNet_plain : NetTransitionIdsPlain demoNet.
Proof. apply NetTransitionIdsPlain_check. vm_compute. reflexivity. Qed.

Lemma demoNet_sources_plain : NetSourcesPlain demoNet.
Proof. apply NetSourcesPlain_check. vm_compute. reflexivity. Qed.

Lemma demoAnswer_right : AnswerFor demoNet demoMarking demoAnswer.
Proof.
  split; [|discriminate]. intros t.
  rewrite <- (localAnalyze_enabled demoNet (Some demoMarking)).
  replace (shown_enabled (localAnalyze demoNet (Some demoMarking)))
    with ["T1"] by (vm_compute; reflexivity).
  reflexivity.
Qed.

Lemma deadlock_is_local_witness :
  (∃ r, localAnalyzeJs demoNet (Some demoMarking) = Some r ∧
        analyzeStateJs None demoNet (Some demoMarking) = Some r ∧
        (∀ t, t ∈ shown_enabled r ↔ EnabledInNet demoNet demoMarking t) ∧
        (shown_deadlocked r = true ↔ shown_enabled r = []) ∧
        (shown_deadlocked r = true ↔
         ∀ t, ¬ EnabledInNet demoNet demoMarking t)) ∧
  (∃ r, analyzeStateJs (Some demoAnswer) demoNet (Some demoMarking) = Some r ∧
        (∀ t, t ∈ shown_enabled r ↔ EnabledInNet demoNet demoMarking t) ∧
        (shown_deadlocked r = true ↔ shown_enabled r = []) ∧
        (shown_deadlocked r = true ↔
         ∀ t, ¬ EnabledInNet demoNet demoMarking t)).
Proof.
  split.
  - exact (proj1 (deadlock_is_local demoNet (Some demoMarking))
             demoNet_plain demoNet_sources_plain).
  - exact (proj2 (deadlock_is_local demoNet (Some demoMarking))
             demoAnswer demoAnswer_right).
Defined.


(** Dangling arcs never make the local analysis fail, and they are not
    counted.  The analysis of a net is the analysis of the net with its
    dangling arcs taken out: the same is shown, or both throw.  When no
    transition of the net is named like a member inherited from
    [Object.prototype], the analysis does return; its input-arc index then
    holds no dangling arc (an arc filed under [k] is an arc of the net from
    a place of the net to the transition [k]), and a transition all of whose
    incoming arcs are dangling is shown as enabled, whatever the marking. *)
Theorem dangling_arcs_are_skipped (net : Net) (marking : option (gmap string Z)) :
  (localAnalyzeJs net marking = localAnalyzeJs (withoutDangling net) marking ∧
   ∀ a, a ∈ arcs (withoutDangling net) ↔ a ∈ arcs net ∧ ¬ dangling net a) ∧
  (NetTransitionIdsPlain net →
   ∃ inArcs r,
     indexNetArcsJs (list_to_set (map p_id (places net)))
                    (list_to_set (map t_id (transitions net)))
                    (arcs net) = Some inArcs ∧
     localAnalyzeJs net marking = Some r ∧
     (∀ k a, a ∈ default [] (inArcs !! k) →
             a ∈ arcs net ∧ dst a = k ∧ ¬ dangling net a) ∧
     (∀ t, t ∈ map t_id (transitions net) →
           (∀ a, a ∈ arcs net → dst a = t → dangling net a) →
           t ∈ shown_enabled r)).
Proof.
  split.
  { split; [apply localAnalyzeJs_withoutDangling|apply withoutDangling_arcs]. }
  intros Hp.
  assert (∀ k a,
            a ∈ default [] (indexNetArcs (list_to_set (map p_id (places net)))
                                          (list_to_set (map t_id (transitions net)))
                                          (arcs net) !! k) →
            a ∈ arcs net ∧ dst a = k ∧ ¬ dangling net a) as Hidx.
  { intros k a. rewrite indexNetArcs_lookup, list_elem_of_In, filter_In.
    intros [Ha Hd]. apply bool_decide_eq_true_1 in Hd as (Hdst & Hk & Hsrc).
    apply elem_of_list_to_set in Hk, Hsrc.
    split_and!; [by apply list_elem_of_In|done|].
    intros [Hs|Ht]; [done|]. apply Ht. by rewrite Hdst. }
  eexists _, _. split_and!.
  - by rewrite indexNetArcsJs_throws, bad_dst_false.
  - by apply localAnalyzeJs_returns.
  - exact Hidx.
  - intros t Ht Hdang. cbv zeta. simpl.
    apply list_elem_of_In, in_map_iff in Ht as (tr & <- & Htr).
    apply list_elem_of_In, in_map_iff. exists tr. split; [done|].
    apply filter_In. split; [done|]. apply forallb_forall. intros a Ha.
    apply list_elem_of_In, Hidx in Ha as (Ha & Hdst & Hnd).
    by destruct (Hnd (Hdang a Ha Hdst)).
Qed.

Lemma danglingNet_plain : NetTransitionIdsPlain danglingNet.
Proof. apply NetTransitionIdsPlain_check. vm_compute. reflexivity. Qed.

Lemma danglingNet_only_dangling :
  ∀ a, a ∈ arcs danglingNet → dst a = "T1" → dangling danglingNet a.
Proof.
  simpl. intros a Ha _. apply list_elem_of_singleton in Ha as ->.
  left. simpl. intros Hin. apply list_elem_of_singleton in Hin.
  discriminate Hin.
Qed.

Lemma dangling_arcs_are_skipped_witness :
  ∃ r, localAnalyzeJs danglingNet None = Some r ∧ "T1" ∈ shown_enabled r.
Proof.
  destruct (proj2 (dangling_arcs_are_skipped danglingNet None)
              danglingNet_plain) as (inArcs & r & _ & Hr & _ & Hen).
  exists r. split; [exact Hr|].
  apply Hen; [apply list_elem_of_here|exact danglingNet_only_dangling].
Defined.

(** ** The model on the example net *)

Example addPlace_names_the_node :
  map n_id (nodes (addPlace freshState)) = ["P1"; "P2"; "T1"; "P3"].
Proof. vm_compute. reflexivity. Qed.

(** A successful firing of [T1] from the fresh state records two steps and
    leaves the cursor on the second; nothing is enabled afterwards. *)
Example fire_records_step :
  let st' := fire "T1" (Fired [("P1", Some 0); ("P2", Some 1)]) 1000 1400
                  freshState in
  map fired (history st') = [None; Some "T1"] ∧ hIndex st' = 1 ∧
  map node_tokens (nodes st') = [0; 1; 0] ∧ enabled st' = [] ∧
  isFiring st' = false.
Proof. vm_compute. repeat split; reflexivity. Qed.

(** Going back to the first step restores its marking and enabled set. *)
Example goTo_restores_marking :
  let st' := goTo 0 recordedState in
  map node_tokens (nodes st') = [1; 0; 0] ∧ enabled st' = ["T1"] ∧
  hIndex st' = 0 ∧ length (history st') = 2%nat.
Proof. vm_compute. repeat split; reflexivity. Qed.

Example demo_verdicts :
  map verdict (placeVerdicts (Some (demoResult true)) (Js.Num (1 # 1)))
  = [No; Unknown] ∧
  map verdict (placeVerdicts (Some (demoResult false)) (Js.Num (1 # 1)))
  = [No; Yes] ∧
  map verdict (placeVerdicts (Some (demoResult true)) Js.NaN) = [Dash; Dash].
Proof. vm_compute. repeat split; reflexivity. Qed.

(** * Further properties of the code *)

(** Membership in a list written out. *)
Ltac in_list :=
  solve [repeat first [apply list_elem_of_here | apply list_elem_of_further]].

(** ** The cursor of the history *)

Lemma HistoryOk_commit st :
  (history st = [] ∧ hIndex st = -1) ∨
  0 <= hIndex st < Z.of_nat (length (history st)) →
  HistoryOk (commit st).
Proof. intros H. split; [done|exact H]. Qed.

Lemma HistoryOk_cursor st :
  HistoryOk st →
  (history st = [] ∧ hIndex st = -1) ∨
  0 <= hIndex st < Z.of_nat (length (history st)).
Proof. by intros [_ H]. Qed.

Lemma goTo_cursor st i :
  HistoryOk st →
  (history (goTo i st) = [] ∧ hIndex (goTo i st) = -1) ∨
  0 <= hIndex (goTo i st) < Z.of_nat (length (history (goTo i st))).
Proof.
  intros [_ Hc]. rewrite goTo_history.
  destruct (decide (0 <= i < Z.of_nat (length (history st)))) as [Hi|Hi].
  - right. rewrite goTo_hIndex by done. done.
  - by rewrite goTo_rejected.
Qed.

Lemma ensureHistoryInit_cursor now st :
  HistoryOk st →
  history (ensureHistoryInit now st) ≠ [] ∧
  0 <= hIndex (ensureHistoryInit now st)
    < Z.of_nat (length (history (ensureHistoryInit now st))).
Proof.
  intros [_ Hc]. unfold ensureHistoryInit.
  destruct (history st) as [|s h] eqn:E; simpl.
  - split; [done|lia].
  - rewrite E. split; [done|]. destruct Hc as [[? _]|Hc]; [done|].
    simpl in Hc. done.
Qed.

(** Appending at a cursor that is in range leaves the cursor on the last
    entry. *)
Lemma appendHistory_cursor newStep st :
  hIndexRef st = hIndex st →
  0 <= hIndex st < Z.of_nat (length (history st)) →
  history (appendHistory newStep st)
  = take (Z.to_nat (hIndex st) + 1) (history st) ++ [newStep] ∧
  hIndex (appendHistory newStep st) = hIndex st + 1 ∧
  Z.of_nat (length (history (appendHistory newStep st))) = hIndex st + 2.
Proof.
  intros Href Hc. unfold appendHistory. simpl. rewrite Href.
  destruct (0 <=? hIndex st) eqn:E; [|lia].
  replace (Z.to_nat (hIndex st + 1)) with (Z.to_nat (hIndex st) + 1)%nat by lia.
  split_and!; [done|done|].
  rewrite length_app, length_take. simpl. lia.
Qed.

(** The body of [fireOf] after the history has been initialised. *)
Lemma fireOf_cursor snap tid resp now0 now1 st :
  (history snap = [] ∨ (history st = history snap ∧ hIndex st = hIndex snap)) →
  ((history snap = [] ∧ hIndex snap = -1) ∨
   0 <= hIndex snap < Z.of_nat (length (history snap))) →
  (history st = [] ∧ hIndex st = -1) ∨
  0 <= hIndex st < Z.of_nat (length (history st)) →
  (history (fireOf snap tid resp now0 now1 st) = [] ∧
   hIndex (fireOf snap tid resp now0 now1 st) = -1) ∨
  0 <= hIndex (fireOf snap tid resp now0 now1 st)
    < Z.of_nat (length (history (fireOf snap tid resp now0 now1 st))).
Proof.
  intros Hrel Hsnap Hst. unfold fireOf.
  destruct (isFiring snap); [done|].
  set (st0 := ensureHistoryInitOf snap now0
                (set_error "" (set_isFiring true st))).
  assert (0 <= hIndex st0 < Z.of_nat (length (history st0))) as H0.
  { subst st0. unfold ensureHistoryInitOf.
    destruct (history snap) as [|s h] eqn:E; simpl; [lia|].
    destruct Hrel as [?|[Hh Hi]]; [done|]. rewrite Hh, Hi.
    destruct Hsnap as [[? _]|Hsnap]; [done|]. simpl in Hsnap. done. }
  destruct resp as [ps|msg]; [|right; exact H0].
  right. unfold set_isFiring at 1 2 3. cbn [hIndex history].
  match goal with
  | |- context [appendHistory ?s ?x] =>
      destruct (appendHistory_cursor s x) as (_ & Hi & Hl)
  end; [done|exact H0|].
  cbn [hIndex history set_nodes set_enabled commit set_hIndexRef] in Hi, Hl.
  rewrite Hi. lia.
Qed.

Lemma fire_is_fireOf tid resp now0 now1 st :
  fire tid resp now0 now1 st = fireOf st tid resp now0 now1 st.
Proof.
  unfold fire, fireOf, ensureHistoryInit, ensureHistoryInitOf.
  simpl. by destruct (history st).
Qed.

Lemma ensureHistoryInitOf_self now st :
  ensureHistoryInitOf st now st = ensureHistoryInit now st.
Proof. reflexivity. Qed.

Lemma ensureHistoryInit_rel now st :
  history st = [] ∨
  (history (ensureHistoryInit now st) = history st ∧
   hIndex (ensureHistoryInit now st) = hIndex st).
Proof.
  destruct (history st) eqn:E; [by left|right].
  by rewrite ensureHistoryInit_nonempty by (by rewrite E).
Qed.

Lemma stepButton_cursor resp now0 now1 now2 st :
  HistoryOk st →
  0 <= hIndex (stepButton resp now0 now1 now2 st)
    < Z.of_nat (length (history (stepButton resp now0 now1 now2 st))).
Proof.
  intros Hok. pose proof (HistoryOk_cursor st Hok) as Hc.
  unfold stepButton. rewrite ensureHistoryInitOf_self.
  destruct (ensureHistoryInit_cursor now0 st Hok) as [Hne Hin].
  destruct (computeEnabled _ _); [done|].
  destruct (fireOf_cursor st s resp now1 now2 (ensureHistoryInit now0 st))
    as [[He _]|H]; [apply ensureHistoryInit_rel|done|by right| |done].
  revert He. unfold fireOf. destruct (isFiring st); [done|].
  destruct resp; simpl; [|unfold ensureHistoryInitOf; by destruct (history st)].
  unfold appendHistory. simpl. by destruct (take _ _), (0 <=? _).
Qed.

Lemma HistoryOk_handle addEdge ev st :
  HistoryOk st → HistoryOk (handle addEdge ev st).
Proof.
  intros Hok. pose proof (HistoryOk_cursor st Hok) as Hc.
  apply HistoryOk_commit.
  destruct ev; try (by left); try (by apply goTo_cursor).
  - rewrite fire_is_fireOf. apply fireOf_cursor; [|done|done].
    right. done.
  - right. by apply stepButton_cursor.
  - unfold autoStep. rewrite ensureHistoryInitOf_self.
    destruct (ensureHistoryInit_cursor now0 st Hok) as [Hne Hin].
    destruct (computeEnabled _ _); [by right|].
    apply fireOf_cursor; [apply ensureHistoryInit_rel|done|by right].
  - unfold runButton. rewrite ensureHistoryInitOf_self. simpl.
    right. apply (ensureHistoryInit_cursor now st Hok).
  - rewrite (proj1 (updateSelected_history d st)),
            (proj2 (updateSelected_history d st)). done.
  - unfold deleteSelected. destruct (selectedIds st); [done|by left].
  - done.
  - unfold onConnect. destruct (negb _); [done|by left].
  - unfold importParsed. destruct (List.find _ _); [done|by left].
Qed.

(** X1. In every state that events lead to from the first render, the
    cursor and its mirror agree, the cursor is -1 exactly on an empty
    history and otherwise points at an entry. *)
Theorem reachable_HistoryOk addEdge (st : AppState) :
  reachable addEdge st → HistoryOk st.
Proof.
  induction 1 as [|ev st _ IH].
  - split; [done|by left].
  - by apply HistoryOk_handle.
Qed.

Lemma reachable_HistoryOk_witness :
  HistoryOk
    (handle plainAddEdge (EGoTo 0)
       (handle plainAddEdge (EFire "T1" demoFired 1000 1400)
          (handle plainAddEdge (EFromNet demoNet) initialState))).
Proof.
  apply (reachable_HistoryOk plainAddEdge).
  apply reachable_step, reachable_step, reachable_step, reachable_init.
Defined.





(** ** Restoring a recorded marking *)

Lemma withTokens_id tks n : n_id (withTokens tks n) = n_id n.
Proof. unfold withTokens. by destruct (isP _). Qed.

Lemma withTokens_type tks n : n_type (withTokens tks n) = n_type n.
Proof. unfold withTokens. by destruct (isP _). Qed.

Lemma withTokens_tokens tks n :
  node_tokens (withTokens tks n)
  = if isP (Some n) then tokensAt tks (n_id n) else node_tokens n.
Proof. unfold withTokens. by destruct (isP _). Qed.

Lemma withTokens_ids tks ns : map n_id (map (withTokens tks) ns) = map n_id ns.
Proof. rewrite map_map. apply map_ext. apply withTokens_id. Qed.


(** The ids of the place nodes. *)
Lemma place_id_iff ns x :
  x ∈ map n_id (List.filter (fun n => isP (Some n)) ns) ↔
  ∃ p, p ∈ ns ∧ n_type p = "place" ∧ n_id p = x.
Proof.
  rewrite list_elem_of_In, in_map_iff. split.
  - intros (p & Hid & Hp). apply filter_In in Hp as [Hp Hty].
    exists p. split_and!; [by apply list_elem_of_In| |done].
    by apply String.eqb_eq.
  - intros (p & Hp & Hty & Hid). exists p. split; [done|].
    apply filter_In. split; [by apply list_elem_of_In|].
    by apply String.eqb_eq.
Qed.

(** The marking collected after [withTokens tks]: [tks] on the place ids,
    zero elsewhere. *)
Lemma collect_withTokens tks ns x :
  NoDup (map n_id ns) →
  tokensAt (collectTokensFromNodes (map (withTokens tks) ns)) x
  = if decide (x ∈ map n_id (List.filter (fun n => isP (Some n)) ns))
    then tokensAt tks x else 0.
Proof.
  intros Hnd. destruct (decide _) as [Hx|Hx].
  - apply place_id_iff in Hx as (p & Hp & Hty & <-).
    rewrite <- (withTokens_id tks p) at 1.
    rewrite collectTokens_place.
    + rewrite withTokens_tokens. simpl. by rewrite Hty.
    + by rewrite withTokens_ids.
    + apply list_elem_of_In, in_map. by apply list_elem_of_In.
    + by rewrite withTokens_type.
  - apply collectTokens_other. intros q Hq Hty Hid. apply Hx.
    apply list_elem_of_In, in_map_iff in Hq as (p & <- & Hp).
    rewrite withTokens_type in Hty. rewrite withTokens_id in Hid.
    apply place_id_iff. exists p. by split; [apply list_elem_of_In|].
Qed.

(** [enabledAtTokens] looks at the ids and types of the nodes only. *)
Lemma enabledAtTokens_nodes ns ns' es m :
  map (fun n => (n_id n, n_type n)) ns = map (fun n => (n_id n, n_type n)) ns' →
  enabledAtTokens ns es m = enabledAtTokens ns' es m.
Proof.
  intros Heq. unfold enabledAtTokens. cbv zeta. rewrite Heq.
  set (ix := indexInArcs _ es). clearbody ix.
  revert ns' Heq. induction ns as [|n ns IH]; intros [|n' ns'] Heq;
    try discriminate; [done|].
  simpl in Heq. injection Heq as Hid Hty Hrest. simpl.
  rewrite Hty. destruct (String.eqb (n_type n') "transition"); simpl.
  - rewrite Hid. destruct (forallb _ _); simpl; [rewrite Hid; f_equal|];
      by apply IH.
  - by apply IH.
Qed.

(** [enabledAtTokens] reads the marking at the sources of the edges only. *)
Lemma enabledAtTokens_sources ns es m1 m2 :
  (∀ e, e ∈ es → tokensAt m1 (source e) = tokensAt m2 (source e)) →
  enabledAtTokens ns es m1 = enabledAtTokens ns es m2.
Proof.
  intros Hm. unfold enabledAtTokens. cbv zeta. f_equal.
  apply List.filter_ext. intros tr.
  rewrite indexInArcs_lookup.
  induction es as [|e es IH]; [done|]. simpl.
  assert (forallb (fun a => default 0 (m1 !! source a) >=? edge_weight a)
            (List.filter (fun e0 => bool_decide
               (target e0 = n_id tr ∧ _ !! n_id tr = Some "transition")) es)
          = forallb (fun a => default 0 (m2 !! source a) >=? edge_weight a)
            (List.filter (fun e0 => bool_decide
               (target e0 = n_id tr ∧ _ !! n_id tr = Some "transition")) es))
    as IH' by (apply IH; intros e' He'; apply Hm; by right).
  destruct (bool_decide _); [|exact IH']. simpl. rewrite IH'.
  f_equal. specialize (Hm e (list_elem_of_here _ _)). unfold tokensAt in Hm.
  by rewrite Hm.
Qed.

Lemma goTo_nodes st i step :
  0 <= i → history st !! Z.to_nat i = Some step →
  nodes (goTo i st) = map (withTokens (step_tokens step)) (nodes st) ∧
  edges (goTo i st) = edges st ∧
  enabled (goTo i st) = computeEnabled (nodes (goTo i st)) (edges st).
Proof. intros Hi Hs. by rewrite (goTo_accepted st i step). Qed.



(** X4. Record, then restore: on a state without history and with unique
    node ids, initialising the history and jumping to its entry 0 leaves
    every node with the token count it had. *)
Theorem init_then_goTo_keeps_tokens (st : AppState) (now : Z) :
  history st = [] → NoDup (map n_id (nodes st)) →
  let st' := goTo 0 (commit (ensureHistoryInit now st)) in
  map node_tokens (nodes st') = map node_tokens (nodes st) ∧
  map n_id (nodes st') = map n_id (nodes st) ∧
  hIndex st' = 0 ∧ length (history st') = 1%nat.
Proof.
  intros He Hnd st'. subst st'.
  destruct (ensureHistoryInit_empty now st He) as [Hh Hi].
  set (st1 := commit (ensureHistoryInit now st)).
  assert (history st1 = [ {| fired := None;
                             step_tokens := collectTokensFromNodes (nodes st);
                             ts := now |} ]) as Hh1 by exact Hh.
  assert (nodes st1 = nodes st) as Hn1.
  { subst st1. unfold ensureHistoryInit. by rewrite He. }
  destruct (goTo_nodes st1 0 _ (Z.le_refl 0) (f_equal (.!! 0%nat) Hh1))
    as (Hn & _ & _).
  rewrite Hn, Hn1. simpl. split_and!.
  - rewrite map_map. apply map_ext_in. intros n Hn'.
    rewrite withTokens_tokens. simpl.
    destruct (String.eqb (n_type n) "place") eqn:E; [|done].
    apply collectTokens_place; [done|by apply list_elem_of_In|].
    by apply String.eqb_eq.
  - apply withTokens_ids.
  - apply goTo_hIndex. rewrite Hh1. simpl. lia.
  - by rewrite goTo_history, Hh1.
Qed.

Lemma init_then_goTo_keeps_tokens_witness :
  map node_tokens (nodes (goTo 0 (commit (ensureHistoryInit 1000 freshState))))
  = [1; 0; 0].
Proof.
  assert (NoDup (map n_id (nodes freshState))) as Hnd.
  { apply (bool_decide_unpack _). vm_compute. reflexivity. }
  rewrite (proj1 (init_then_goTo_keeps_tokens freshState 1000 eq_refl Hnd)).
  reflexivity.
Defined.

(** X5. The choices listed beside step [i] of the history are the
    transitions highlighted after jumping to [i]: with unique node ids and
    a step that has tokens only on places, [enabledAtTokens] at the step's
    marking equals the enabled list that [goTo i] sets. *)
Theorem history_choices_match_goTo (st : AppState) (i : Z) (step : Step) :
  0 <= i → history st !! Z.to_nat i = Some step →
  NoDup (map n_id (nodes st)) →
  (∀ x, tokensAt (step_tokens step) x ≠ 0 →
        x ∈ map n_id (List.filter (fun n => isP (Some n)) (nodes st))) →
  enabled (goTo i st)
  = enabledAtTokens (nodes st) (edges st) (step_tokens step).
Proof.
  intros Hi Hs Hnd Hsup.
  destruct (goTo_nodes st i step Hi Hs) as (Hn & _ & ->). rewrite Hn.
  rewrite computeEnabled_enabledAtTokens.
  rewrite (enabledAtTokens_ext _ _ _ (step_tokens step)).
  - apply enabledAtTokens_nodes. rewrite map_map. apply map_ext.
    intros n. by rewrite withTokens_id, withTokens_type.
  - intros x. rewrite collect_withTokens by done.
    destruct (decide _) as [Hx|Hx]; [done|].
    destruct (decide (tokensAt (step_tokens step) x = 0)) as [->|Hne];
      [done|]. by destruct (Hx (Hsup x Hne)).
Qed.

Lemma history_choices_match_goTo_witness :
  enabled (goTo 0 recordedState)
  = enabledAtTokens (nodes recordedState) (edges recordedState)
      (collectTokensFromNodes demoNodes).
Proof.
  apply (history_choices_match_goTo recordedState 0
           {| fired := None; step_tokens := collectTokensFromNodes demoNodes;
              ts := 1000 |}).
  - lia.
  - reflexivity.
  - apply (bool_decide_unpack _). vm_compute. reflexivity.
  - intros x Hx.
    destruct (decide (x ∈ ["P1"; "P2"])) as [Hin|Hnin]; [exact Hin|].
    destruct Hx. cbn [step_tokens]. unfold tokensAt, collectTokensFromNodes.
    rewrite fromEntries_lookup_None; [reflexivity|].
    intros HIn. apply Hnin, list_elem_of_In. exact HIn.
Defined.

(** ** Stepping through the history *)

(** X6. With the cursor in its invariant, [stepPrev] does nothing at the
    first entry (where the Prev button is disabled) and otherwise moves the
    cursor one back; [stepNext] does nothing at the last entry and
    otherwise moves one forward; [stepFirst] and [stepLast] put the cursor
    on the first and the last entry, and do nothing on an empty history. *)
Theorem step_buttons_move_cursor (st : AppState) :
  HistoryOk st →
  let len := Z.of_nat (length (history st)) in
  (hIndex st <= 0 → stepPrev st = st) ∧
  (0 < hIndex st → hIndex (stepPrev st) = hIndex st - 1) ∧
  (len - 1 <= hIndex st → stepNext st = st) ∧
  (hIndex st < len - 1 → hIndex (stepNext st) = hIndex st + 1) ∧
  (history st ≠ [] →
   hIndex (stepFirst st) = 0 ∧ hIndex (stepLast st) = len - 1) ∧
  (history st = [] → stepFirst st = st ∧ stepLast st = st).
Proof.
  intros [_ Hc] len. subst len.
  unfold stepPrev, stepNext, stepFirst, stepLast. split_and!.
  - intros H. apply goTo_rejected. lia.
  - intros H. apply goTo_hIndex. destruct Hc as [[_ ?]|?]; lia.
  - intros H. apply goTo_rejected. lia.
  - intros H. apply goTo_hIndex. destruct Hc as [[_ ?]|?]; lia.
  - intros Hne. destruct Hc as [[? _]|Hc]; [done|].
    split; apply goTo_hIndex; lia.
  - intros He. split; apply goTo_rejected; rewrite He; simpl; lia.
Qed.

Lemma step_buttons_move_cursor_witness :
  hIndex (stepPrev recordedState) = 0 ∧ stepNext recordedState = recordedState.
Proof.
  assert (HistoryOk recordedState) as Hok.
  { split; [reflexivity|right]. simpl. lia. }
  destruct (step_buttons_move_cursor recordedState Hok)
    as (_ & Hprev & Hnext & _).
  split; [apply Hprev|apply Hnext]; simpl; lia.
Defined.

(** ** Step and auto-run *)

Lemma computeEnabled_EnabledIn ns es t :
  NoDup (map n_id ns) →
  t ∈ computeEnabled ns es ↔ EnabledIn ns es (getMarking ns) t.
Proof.
  intros Hnd. rewrite computeEnabled_enabledAtTokens.
  by apply enabledAtTokens_spec.
Qed.


Lemma fireOf_failed_nodes snap tid message now0 now1 st :
  nodes (fireOf snap tid (Failed message) now0 now1 st) = nodes st.
Proof.
  unfold fireOf, ensureHistoryInitOf.
  destruct (isFiring snap); [done|]. simpl. by destruct (_ <? _)%nat.
Qed.



(** The Step button at a deadlock only initialises the history; with
    a transition enabled it does what a tick of the auto-run loop does.
    A Step or a tick whose request fails leaves the nodes as they were. *)
Lemma stepButton_vs_autoStep (st : AppState) (resp : Response)
  (now0 now1 now2 : Z) :
  (computeEnabled (nodes st) (edges st) = [] →
   stepButton resp now0 now1 now2 st = ensureHistoryInit now0 st ∧
   autoRun (stepButton resp now0 now1 now2 st) = autoRun st) ∧
  (computeEnabled (nodes st) (edges st) ≠ [] →
   stepButton resp now0 now1 now2 st = autoStep resp now0 now1 now2 st) ∧
  (∀ message,
     nodes (stepButton (Failed message) now0 now1 now2 st) = nodes st ∧
     nodes (autoStep (Failed message) now0 now1 now2 st) = nodes st).
Proof.
  unfold stepButton, autoStep. rewrite ensureHistoryInitOf_self.
  assert (nodes (ensureHistoryInit now0 st) = nodes st) as Hn.
  { unfold ensureHistoryInit. by destruct (_ <? _)%nat. }
  assert (autoRun (ensureHistoryInit now0 st) = autoRun st) as Ha.
  { unfold ensureHistoryInit. by destruct (_ <? _)%nat. }
  destruct (computeEnabled (nodes st) (edges st)) as [|tid rest].
  - split_and!; [done|done|]. intros message. by split.
  - split_and!; [done|done|]. intros message.
    by rewrite fireOf_failed_nodes.
Qed.

Lemma stepButton_vs_autoStep_witness :
  stepButton demoFired 1000 1001 1400 freshState
  = autoStep demoFired 1000 1001 1400 freshState.
Proof.
  apply (proj1 (proj2 (stepButton_vs_autoStep freshState demoFired
                         1000 1001 1400))).
  vm_compute. discriminate.
Defined.

(** ** Deleting nodes and edges *)

Lemma elem_of_List_filter {A : Type} (f : A → bool) (l : list A) (x : A) :
  x ∈ List.filter f l ↔ x ∈ l ∧ f x = true.
Proof. by rewrite !list_elem_of_In, filter_In. Qed.

Lemma Resolved_filter (keep : string → bool) (st : AppState)
  (ns' : list Node) (es' : list Edge) :
  Resolved st →
  (∀ n, n ∈ ns' ↔ n ∈ nodes st ∧ keep (n_id n) = true) →
  (∀ e, e ∈ es' → e ∈ edges st ∧ keep (source e) = true
                  ∧ keep (target e) = true) →
  ∀ e, e ∈ es' → source e ∈ map n_id ns' ∧ target e ∈ map n_id ns'.
Proof.
  intros Hres Hns Hes e He. destruct (Hes e He) as (He0 & Hs & Ht).
  destruct (Hres e He0) as [Hsrc Htgt].
  apply list_elem_of_In, in_map_iff in Hsrc as (s & Hsid & Hsin).
  apply list_elem_of_In, in_map_iff in Htgt as (t & Htid & Htin).
  split; apply list_elem_of_In, in_map_iff.
  - exists s. split; [done|]. apply list_elem_of_In, Hns.
    split; [by apply list_elem_of_In|by rewrite Hsid].
  - exists t. split; [done|]. apply list_elem_of_In, Hns.
    split; [by apply list_elem_of_In|by rewrite Htid].
Qed.

(** X8. [deleteById id] keeps exactly the nodes whose id is not [id] and
    the edges that neither are [id] nor touch it, drops the selection and
    the history, and leaves no dangling edge behind when there was none. *)
Theorem deleteById_removes_attached (id : string) (st : AppState) :
  let st' := deleteById id st in
  (∀ n, n ∈ nodes st' ↔ n ∈ nodes st ∧ n_id n ≠ id) ∧
  (∀ e, e ∈ edges st' ↔
        e ∈ edges st ∧ e_id e ≠ id ∧ source e ≠ id ∧ target e ≠ id) ∧
  (Resolved st → Resolved st') ∧
  selectedId st' = None ∧ selectedIds st' = [] ∧ history st' = [].
Proof.
  intros st'.
  assert (∀ n, n ∈ nodes st' ↔ n ∈ nodes st ∧ n_id n ≠ id) as Hns.
  { intros n. subst st'. simpl. rewrite !list_elem_of_In, filter_In.
    rewrite negb_true_iff, String.eqb_neq. done. }
  assert (∀ e, e ∈ edges st' ↔
               e ∈ edges st ∧ e_id e ≠ id ∧ source e ≠ id ∧ target e ≠ id)
    as Hes.
  { intros e. subst st'. simpl. rewrite !list_elem_of_In, filter_In.
    rewrite !andb_true_iff, !negb_true_iff, !String.eqb_neq. tauto. }
  split_and!; try done.
  intros Hres.
  refine (Resolved_filter (fun x => negb (String.eqb x id)) st
            (nodes st') (edges st') Hres _ _).
  - intros n. rewrite Hns, negb_true_iff, String.eqb_neq. done.
  - intros e He. apply Hes in He as (? & _ & ? & ?).
    rewrite !negb_true_iff, !String.eqb_neq. done.
Qed.

Lemma deleteById_removes_attached_witness :
  Resolved (deleteById "T1" recordedState) ∧
  edges (deleteById "T1" recordedState) = [].
Proof.
  split; [|reflexivity].
  apply (proj1 (proj2 (proj2 (deleteById_removes_attached "T1" recordedState)))).
  intros e He. simpl in He.
  apply elem_of_cons in He as [->|He];
    [|apply list_elem_of_singleton in He as ->]; simpl;
    split; in_list.
Defined.

(** X9. The Delete key with nothing selected changes nothing, the history
    included.  With a selection it keeps exactly the nodes that are not
    selected and the edges that neither are selected nor touch a selected
    id, drops selection and history, and leaves no dangling edge behind
    when there was none. *)
Theorem deleteSelected_removes_attached (st : AppState) :
  let st' := deleteSelected st in
  (selectedIds st = [] → st' = st) ∧
  (selectedIds st ≠ [] →
   (∀ n, n ∈ nodes st' ↔ n ∈ nodes st ∧ (n_id n ∉ selectedIds st)) ∧
   (∀ e, e ∈ edges st' ↔
         e ∈ edges st ∧ (e_id e ∉ selectedIds st) ∧
         (source e ∉ selectedIds st) ∧ (target e ∉ selectedIds st)) ∧
   (Resolved st → Resolved st') ∧
   selectedIds st' = [] ∧ history st' = []).
Proof.
  intros st'. subst st'. unfold deleteSelected.
  destruct (selectedIds st) as [|x l] eqn:E; [done|].
  split; [done|]. intros _.
  set (sel := list_to_set (x :: l) : gset string).
  assert (∀ y, negb (bool_decide (y ∈ sel)) = true ↔ y ∉ x :: l) as Hsel.
  { intros y. rewrite negb_true_iff, bool_decide_eq_false. subst sel.
    by rewrite elem_of_list_to_set. }
  set (st' := clearHistory _).
  assert (∀ n, n ∈ nodes st' ↔ n ∈ nodes st ∧ (n_id n ∉ x :: l)) as Hns.
  { intros n. subst st'. simpl. by rewrite elem_of_List_filter, Hsel. }
  assert (∀ e, e ∈ edges st' ↔
               e ∈ edges st ∧ (e_id e ∉ x :: l) ∧
               (source e ∉ x :: l) ∧ (target e ∉ x :: l)) as Hes.
  { intros e. subst st'. simpl.
    rewrite elem_of_List_filter, !andb_true_iff, !Hsel. tauto. }
  split_and!; try done.
  intros Hres.
  refine (Resolved_filter (fun y => negb (bool_decide (y ∈ sel))) st
            (nodes st') (edges st') Hres _ _).
  - intros n. by rewrite Hns, Hsel.
  - intros e He. apply Hes in He as (? & _ & ? & ?). by rewrite !Hsel.
Qed.

Lemma deleteSelected_removes_attached_witness :
  deleteSelected recordedState = recordedState ∧
  history (deleteSelected (set_selectedIds ["P2"] recordedState)) = [].
Proof.
  split.
  - apply (proj1 (deleteSelected_removes_attached recordedState)).
    reflexivity.
  - apply (proj2 (deleteSelected_removes_attached
                    (set_selectedIds ["P2"] recordedState))).
    simpl. discriminate.
Defined.

(** ** Editing the selected element *)

(** X10. [updateSelected] keeps the shape of the net: the ids and types of
    the nodes and the ids and end points of the edges, in order.  It
    changes nothing when nothing is selected or the selected id names
    neither an edge nor a node; when the id names an edge, only edges
    with that id change, even if a node carries the same id; an element
    with another id is never changed. *)
Theorem updateSelected_keeps_shape (d : Data) (st : AppState) :
  let st' := updateSelected d st in
  map n_id (nodes st') = map n_id (nodes st) ∧
  map n_type (nodes st') = map n_type (nodes st) ∧
  map (fun e => (e_id e, source e, target e)) (edges st')
  = map (fun e => (e_id e, source e, target e)) (edges st) ∧
  (selectedId st = None → st' = st) ∧
  (∀ sid, selectedId st = Some sid →
          sid ∉ map e_id (edges st) → sid ∉ map n_id (nodes st) → st' = st) ∧
  (∀ sid, selectedId st = Some sid → sid ∈ map e_id (edges st) →
          nodes st' = nodes st) ∧
  (∀ n, n ∈ nodes st → Some (n_id n) ≠ selectedId st → n ∈ nodes st') ∧
  (∀ e, e ∈ edges st → Some (e_id e) ≠ selectedId st → e ∈ edges st').
Proof.
  intros st'. subst st'. unfold updateSelected.
  destruct (selectedId st) as [sid|] eqn:Hsel; simpl;
    [|split_and!; try done; by intros ? [=]].
  destruct (List.find (fun e => String.eqb (e_id e) sid) (edges st))
    as [se|] eqn:Hfe.
  - apply find_some in Hfe as [Hse Hid]. apply String.eqb_eq in Hid.
    simpl. split_and!; try done.
    + rewrite map_map. apply map_ext. intros e.
      by destruct (String.eqb (e_id e) (e_id se)).
    + intros ? [= <-] Hno. destruct Hno. rewrite <- Hid.
      by apply list_elem_of_In, in_map.
    + intros e He Hne. apply list_elem_of_In, in_map_iff. exists e.
      split; [|by apply list_elem_of_In].
      destruct (String.eqb (e_id e) (e_id se)) eqn:E; [|done].
      apply String.eqb_eq in E. destruct Hne. congruence.
  - assert (sid ∉ map e_id (edges st)) as Hnoedge.
    { intros Hin. apply list_elem_of_In, in_map_iff in Hin as (e & He & Hin).
      apply (find_none _ _ Hfe) in Hin. apply String.eqb_neq in Hin. done. }
    destruct (List.find (fun n => String.eqb (n_id n) sid) (nodes st))
      as [sn|] eqn:Hfn.
    + apply find_some in Hfn as [Hsn Hid]. apply String.eqb_eq in Hid.
      simpl. split_and!; try done.
      * rewrite map_map. apply map_ext. intros n.
        by destruct (String.eqb (n_id n) (n_id sn)).
      * rewrite map_map. apply map_ext. intros n.
        by destruct (String.eqb (n_id n) (n_id sn)).
      * intros ? [= <-] _ Hno. destruct Hno. rewrite <- Hid.
        by apply list_elem_of_In, in_map.
      * intros ? [= <-] Hin. by destruct Hnoedge.
      * intros n Hn Hne. apply list_elem_of_In, in_map_iff. exists n.
        split; [|by apply list_elem_of_In].
        destruct (String.eqb (n_id n) (n_id sn)) eqn:E; [|done].
        apply String.eqb_eq in E. destruct Hne. congruence.
    + split_and!; done.
Qed.

Lemma updateSelected_keeps_shape_witness :
  updateSelected weightTwo recordedState = recordedState ∧
  nodes (updateSelected weightTwo arcSelectedState) = nodes arcSelectedState.
Proof.
  destruct (updateSelected_keeps_shape weightTwo recordedState)
    as (_ & _ & _ & Hnone & _).
  destruct (updateSelected_keeps_shape weightTwo arcSelectedState)
    as (_ & _ & _ & _ & _ & Hedge & _).
  split; [apply Hnone; reflexivity|].
  apply (Hedge "A1"); [reflexivity|]. simpl. apply list_elem_of_here.
Defined.

(** ** Connecting nodes *)

Lemma find_id_Some ns id n :
  List.find (fun n => String.eqb (n_id n) id) ns = Some n →
  n ∈ ns ∧ n_id n = id.
Proof.
  intros H. apply find_some in H as [Hin Hid].
  split; [by apply list_elem_of_In|by apply String.eqb_eq].
Qed.

Lemma Bipartite_withTokens tks ns es :
  Bipartite ns es → Bipartite (map (withTokens tks) ns) es.
Proof.
  intros Hb e He. destruct (Hb e He) as (s & t & Hs & Ht & Hsid & Htid & Hty).
  exists (withTokens tks s), (withTokens tks t).
  rewrite !withTokens_id, !withTokens_type.
  split_and!; try done; apply list_elem_of_In, in_map; by apply list_elem_of_In.
Qed.

Lemma fire_nodes_shape tid resp now0 now1 st :
  ∃ tks, nodes (fire tid resp now0 now1 st) = nodes st ∨
         nodes (fire tid resp now0 now1 st) = map (withTokens tks) (nodes st).
Proof.
  unfold fire. destruct (isFiring st); [exists ∅; by left|].
  assert (∀ now, nodes (ensureHistoryInit now
                          (set_error "" (set_isFiring true st))) = nodes st)
    as Hn by (intros now; unfold ensureHistoryInit; simpl;
              by destruct (_ <? _)%nat).
  destruct resp as [places|message].
  - exists (fromEntries (map (fun p => (p.1, default 0 p.2)) places)).
    right. simpl. by rewrite Hn.
  - exists ∅. left. simpl. by rewrite Hn.
Qed.

Lemma fire_edges tid resp now0 now1 st :
  edges (fire tid resp now0 now1 st) = edges st.
Proof.
  unfold fire. destruct (isFiring st); [done|].
  unfold ensureHistoryInit.
  destruct resp; simpl; by destruct (_ <? _)%nat.
Qed.

Section ConnectFacts.

Variable addEdge : string -> string -> Data -> list Edge -> list Edge.

(** What is used of the library's [addEdge]: an edge of the result is an
    old edge or runs between the two given end points. *)
Hypothesis addEdge_adds : ∀ s t d es e,
  e ∈ addEdge s t d es → e ∈ es ∨ (source e = s ∧ target e = t).

Lemma connect_bipartite ns es from to d :
  Bipartite ns es →
  (isP (List.find (fun n => String.eqb (n_id n) from) ns)
   && isT (List.find (fun n => String.eqb (n_id n) to) ns))
  || (isT (List.find (fun n => String.eqb (n_id n) from) ns)
      && isP (List.find (fun n => String.eqb (n_id n) to) ns)) = true →
  Bipartite ns (addEdge from to d es).
Proof.
  intros Hb Hok e He.
  apply addEdge_adds in He as [He|[Hs Ht]]; [by apply Hb|].
  destruct (List.find (fun n => String.eqb (n_id n) from) ns) as [s|] eqn:Es;
    [|by rewrite ?andb_false_r in Hok].
  destruct (List.find (fun n => String.eqb (n_id n) to) ns) as [t|] eqn:Et;
    [|by rewrite ?andb_false_r in Hok].
  apply find_id_Some in Es as [Hsin Hsid], Et as [Htin Htid].
  exists s, t. split_and!; try congruence.
  simpl in Hok. rewrite orb_true_iff, !andb_true_iff, !String.eqb_eq in Hok.
  done.
Qed.

(** X11. Edges drawn in the editor join a place and a transition: if every
    edge does, so it is after [onConnect] and after a click on a node,
    whatever the click does (fire, pick a source, cancel, refuse or
    connect).  Two nodes of the same kind are never connected: [onConnect]
    then leaves the state as it is. *)
Theorem connecting_keeps_bipartite (st : AppState) (src tgt : string) :
  (Bipartite (nodes st) (edges st) →
   Bipartite (nodes (onConnect addEdge src tgt st))
             (edges (onConnect addEdge src tgt st))) ∧
  (∀ nodeId shiftKey resp now0 now1 ui,
     app ui = st → Bipartite (nodes st) (edges st) →
     let ui' := handleNodeClick addEdge nodeId shiftKey resp now0 now1 ui in
     Bipartite (nodes (app ui')) (edges (app ui'))) ∧
  (∀ s t, List.find (fun n => String.eqb (n_id n) src) (nodes st) = Some s →
          List.find (fun n => String.eqb (n_id n) tgt) (nodes st) = Some t →
          n_type s = n_type t → onConnect addEdge src tgt st = st).
Proof.
  split_and!.
  - intros Hb. unfold onConnect.
    destruct (negb _) eqn:Hok; [done|]. apply negb_false_iff in Hok.
    simpl. by apply connect_bipartite.
  - intros nodeId shiftKey resp now0 now1 ui <- Hb ui'. subst ui'.
    unfold handleNodeClick.
    destruct (List.find _ (nodes (app ui))) as [node|] eqn:En; [|done].
    destruct shiftKey; simpl.
    + destruct (String.eqb (mode ui) "modelling"); simpl; [|done].
      destruct (pendingSource ui) as [from|]; [|done].
      destruct (String.eqb from nodeId) eqn:Esame; [done|].
      destruct (negb _) eqn:Hok; [done|]. apply negb_false_iff in Hok.
      simpl. apply connect_bipartite; [done|]. by rewrite En.
    + destruct (_ && _); [|done].
      destruct (isFiring (app ui)); [done|].
      destruct (negb _); [done|]. simpl. rewrite fire_edges.
      destruct (fire_nodes_shape (n_id node) resp now0 now1 (app ui))
        as [tks [-> | ->]]; [done|by apply Bipartite_withTokens].
  - intros s t Hs Ht Hty. unfold onConnect. rewrite Hs, Ht. simpl.
    rewrite Hty.
    destruct (String.eqb (n_type t) "place") eqn:E1,
             (String.eqb (n_type t) "transition") eqn:E2; try done.
    apply String.eqb_eq in E1, E2. congruence.
Qed.

End ConnectFacts.

Lemma plainAddEdge_adds s t d es e :
  e ∈ plainAddEdge s t d es → e ∈ es ∨ (source e = s ∧ target e = t).
Proof.
  unfold plainAddEdge. rewrite elem_of_app, list_elem_of_singleton.
  intros [?| ->]; [by left|by right].
Qed.

Lemma connecting_keeps_bipartite_witness :
  Bipartite (nodes (onConnect plainAddEdge "P2" "T1" freshState))
            (edges (onConnect plainAddEdge "P2" "T1" freshState)) ∧
  onConnect plainAddEdge "P1" "P2" freshState = freshState.
Proof.
  destruct (connecting_keeps_bipartite plainAddEdge plainAddEdge_adds
              freshState "P2" "T1") as (Hb & _ & _).
  destruct (connecting_keeps_bipartite plainAddEdge plainAddEdge_adds
              freshState "P1" "P2") as (_ & _ & Hsame).
  split.
  - apply Hb. intros e He. simpl in He.
    apply elem_of_cons in He as [->|He];
      [|apply list_elem_of_singleton in He as ->]; eexists _, _.
    + split_and!; [apply list_elem_of_here
                  |do 2 apply list_elem_of_further; apply list_elem_of_here
                  |reflexivity|reflexivity|left; split; reflexivity].
    + split_and!; [do 2 apply list_elem_of_further; apply list_elem_of_here
                  |apply list_elem_of_further, list_elem_of_here
                  |reflexivity|reflexivity|right; split; reflexivity].
  - exact (Hsame _ _ eq_refl eq_refl eq_refl).
Defined.

(** ** The net handed to the backend and to the panel *)

Lemma mapM_map_Some {A B : Type} (f : A → option B) (g : A → B) (l : list A) :
  (∀ x, x ∈ l → f x = Some (g x)) → mapM f l = Some (map g l).
Proof.
  intros Hf. apply mapM_Some.
  induction l as [|x l IH]; simpl; constructor.
  - apply Hf, list_elem_of_here.
  - apply IH. intros y Hy. by apply Hf, list_elem_of_further.
Qed.

(** X12. [toNet] throws exactly when some place or transition node has no
    [data]; nodes of any other type and the edges never make it fail. *)
Theorem toNet_fails_iff (ns : list Node) (es : list Edge) :
  toNet ns es = None ↔
  ∃ n, n ∈ ns ∧ (n_type n = "place" ∨ n_type n = "transition") ∧
       n_data n = None.
Proof.
  unfold toNet. split.
  - intros H.
    destruct (mapM _ (List.filter (fun n => isP (Some n)) ns)) as [ps|] eqn:Ep.
    + destruct (mapM _ (List.filter (fun n => isT (Some n)) ns))
        as [ts|] eqn:Et; [done|].
      apply mapM_None, Exists_exists in Et as (n & Hn & Hf).
      apply elem_of_List_filter in Hn as [Hn Hty]. simpl in Hty.
      apply String.eqb_eq in Hty. exists n. split_and!; [done|by right|].
      by destruct (n_data n).
    + apply mapM_None, Exists_exists in Ep as (n & Hn & Hf).
      apply elem_of_List_filter in Hn as [Hn Hty]. simpl in Hty.
      apply String.eqb_eq in Hty. exists n. split_and!; [done|by left|].
      by destruct (n_data n).
  - intros (n & Hn & Hty & Hd).
    destruct (mapM _ (List.filter (fun n => isP (Some n)) ns)) as [ps|] eqn:Ep;
      [|done].
    destruct (mapM _ (List.filter (fun n => isT (Some n)) ns)) as [ts|] eqn:Et;
      [|done].
    exfalso. destruct Hty as [Hty|Hty].
    + apply mapM_Some_1 in Ep.
      assert (n ∈ List.filter (fun n => isP (Some n)) ns) as Hin.
      { apply elem_of_List_filter. split; [done|]. simpl.
        by apply String.eqb_eq. }
      apply list_elem_of_lookup in Hin as [i Hi].
      destruct (Forall2_lookup_l _ _ _ _ _ Ep Hi) as (p & _ & Hp).
      by rewrite Hd in Hp.
    + apply mapM_Some_1 in Et.
      assert (n ∈ List.filter (fun n => isT (Some n)) ns) as Hin.
      { apply elem_of_List_filter. split; [done|]. simpl.
        by apply String.eqb_eq. }
      apply list_elem_of_lookup in Hin as [i Hi].
      destruct (Forall2_lookup_l _ _ _ _ _ Et Hi) as (t & _ & Ht).
      by rewrite Hd in Ht.
Qed.

Lemma filter_map_const_true {A B : Type} (f : A → B) (p : B → bool) l :
  (∀ x, p (f x) = true) → List.filter p (map f l) = map f l.
Proof.
  intros Hp. induction l as [|x l IH]; simpl; [done|]. by rewrite Hp, IH.
Qed.

Lemma filter_map_const_false {A B : Type} (f : A → B) (p : B → bool) l :
  (∀ x, p (f x) = false) → List.filter p (map f l) = [].
Proof.
  intros Hp. induction l as [|x l IH]; simpl; [done|]. by rewrite Hp, IH.
Qed.

Lemma imap_ext_in {A B : Type} (f g : nat → A → B) (l : list A) :
  (∀ i x, l !! i = Some x → f i x = g i x) → imap f l = imap g l.
Proof.
  revert f g. induction l as [|x l IH]; intros f g Hfg; [done|].
  rewrite !imap_cons. f_equal; [by apply (Hfg 0%nat)|].
  apply IH. intros i y Hy. by apply (Hfg (S i)).
Qed.

(** X13. Loading a net and reading it back: after [fromNet net], [toNet]
    succeeds and returns the places and transitions of [net] unchanged and
    its arcs with the weight made explicit (1 where it was missing),
    provided no arc id is empty. *)
Theorem toNet_after_fromNet (net : Net) (st : AppState) :
  (∀ a, a ∈ arcs net → a_id a ≠ "") →
  let st' := fromNet net st in
  toNet (nodes st') (edges st')
  = Some {| places := places net;
            transitions := transitions net;
            arcs := map (fun a => {| a_id := a_id a; src := src a; dst := dst a;
                                     a_weight := Some (default 1 (a_weight a)) |})
                        (arcs net) |}.
Proof.
  intros Hid st'. subst st'. unfold toNet, fromNet. simpl.
  rewrite !List.filter_app.
  rewrite (filter_map_const_true _ (fun n => isP (Some n))) by done.
  rewrite (filter_map_const_false _ (fun n => isP (Some n))) by done.
  rewrite (filter_map_const_false _ (fun n => isT (Some n))) by done.
  rewrite (filter_map_const_true _ (fun n => isT (Some n))) by done.
  rewrite app_nil_r. simpl.
  rewrite (mapM_map_Some _ (fun n => {| p_id := n_id n;
                                        p_label := default "" (n_data n ≫= label);
                                        p_tokens := node_tokens n |})).
  2:{ intros n Hn. apply list_elem_of_In, in_map_iff in Hn as (p & <- & _).
      done. }
  simpl.
  rewrite (mapM_map_Some _ (fun n => {| t_id := n_id n;
                                        t_label := default "" (n_data n ≫= label) |})).
  2:{ intros n Hn. apply list_elem_of_In, in_map_iff in Hn as (t & <- & _).
      done. }
  simpl. f_equal. f_equal.
  - rewrite map_map. rewrite <- (map_id (places net)) at 2.
    apply map_ext. by intros [].
  - rewrite map_map. rewrite <- (map_id (transitions net)) at 2.
    apply map_ext. by intros [].
  - change (map ?f (arcs net)) with (f <$> arcs net).
    rewrite imap_fmap, <- imap_const. apply imap_ext_in.
    intros i a Ha. simpl.
    assert (a_id a ≠ "") as Hne by (eapply Hid, list_elem_of_lookup_2, Ha).
    apply String.eqb_neq in Hne. by rewrite Hne.
Qed.

Lemma toNet_after_fromNet_witness :
  toNet (nodes (fromNet demoNet initialState))
        (edges (fromNet demoNet initialState)) = Some demoNet.
Proof.
  apply (toNet_after_fromNet demoNet initialState).
  intros a Ha. simpl in Ha.
  apply elem_of_cons in Ha as [->|Ha];
    [|apply list_elem_of_singleton in Ha as ->]; discriminate.
Defined.

(** ** The panel's local analysis against the editor's *)

(** With unique ids, the type dictionary says ['transition'] exactly at the
    ids of the transition nodes. *)
Lemma nodeById_transition_iff ns k :
  NoDup (map n_id ns) →
  fromEntries (map (fun n => (n_id n, n_type n)) ns) !! k = Some "transition"
  ↔ k ∈ map n_id (List.filter (fun n => isT (Some n)) ns).
Proof.
  intros Hnd. rewrite list_elem_of_In, in_map_iff. split.
  - intros H. apply fromEntries_lookup_Some_inv, in_map_iff in H
      as (n & [= <- Hty] & Hn).
    exists n. split; [done|]. apply filter_In. split; [done|].
    simpl. by apply String.eqb_eq.
  - intros (n & <- & Hn). apply filter_In in Hn as [Hn Hty].
    simpl in Hty. apply String.eqb_eq in Hty.
    rewrite nodeById_lookup; [by rewrite Hty|done|by apply list_elem_of_In].
Qed.

Lemma Forall2_map_eq {A B C : Type} (R : A → B → Prop) (f : A → C)
  (g : B → C) (l : list A) (k : list B) :
  Forall2 R l k → (∀ x y, R x y → g y = f x) → map g k = map f l.
Proof.
  intros H HR. induction H as [|x y l k Hxy _ IH]; simpl; [done|].
  by rewrite (HR x y Hxy), IH.
Qed.

Lemma toNet_Some_inv ns es net :
  toNet ns es = Some net →
  map p_id (places net) = map n_id (List.filter (fun n => isP (Some n)) ns) ∧
  map t_id (transitions net)
  = map n_id (List.filter (fun n => isT (Some n)) ns) ∧
  ∃ g : nat → Edge → Arc,
    arcs net = imap g es ∧
    ∀ i e, src (g i e) = source e ∧ dst (g i e) = target e ∧
           a_weight (g i e) = Some (edge_weight e).
Proof.
  unfold toNet. intros H.
  destruct (mapM _ (List.filter (fun n => isP (Some n)) ns)) as [ps|] eqn:Ep;
    [|done].
  destruct (mapM _ (List.filter (fun n => isT (Some n)) ns)) as [ts|] eqn:Et;
    [|done].
  simpl in H. injection H as <-. simpl.
  apply mapM_Some_1 in Ep, Et. split_and!.
  - apply (Forall2_map_eq _ _ _ _ _ Ep). intros n p Hp.
    destruct (n_data n); [|done]. by injection Hp as <-.
  - apply (Forall2_map_eq _ _ _ _ _ Et). intros n t Ht.
    destruct (n_data n); [|done]. by injection Ht as <-.
  - eexists. split; [reflexivity|]. done.
Qed.

Lemma forallb_filter_imap {A B : Type} (g : nat → A → B)
  (p : B → bool) (f : B → bool) (p' : A → bool) (f' : A → bool) (l : list A) :
  (∀ i x, x ∈ l → p (g i x) = p' x) →
  (∀ i x, x ∈ l → f (g i x) = f' x) →
  forallb f (List.filter p (imap g l)) = forallb f' (List.filter p' l).
Proof.
  revert g. induction l as [|x l IH]; intros g Hp Hf; [done|].
  rewrite imap_cons. simpl.
  rewrite (Hp 0%nat x (list_elem_of_here _ _)).
  assert (forallb f (List.filter p (imap (g ∘ S) l))
          = forallb f' (List.filter p' l)) as IH'.
  { apply IH; intros i y Hy; [apply (Hp (S i))|apply (Hf (S i))];
      by apply list_elem_of_further. }
  destruct (p' x); [|done]. simpl.
  by rewrite (Hf 0%nat x (list_elem_of_here _ _)), IH'.
Qed.

Lemma map_filter_ext_in {A B : Type} (h : A → B) (p q : A → bool) l :
  (∀ x, x ∈ l → p x = q x) →
  map h (List.filter p l) = map h (List.filter q l).
Proof.
  intros H. induction l as [|x l IH]; simpl; [done|].
  rewrite (H x (list_elem_of_here _ _)).
  destruct (q x); simpl; [f_equal|]; apply IH; intros y Hy;
    by apply H, list_elem_of_further.
Qed.

Lemma map_filter_by_key {A B K : Type} (f : A → K) (g : B → K)
  (Q : K → bool) (l : list A) (k : list B) :
  map f l = map g k →
  map f (List.filter (fun x => Q (f x)) l)
  = map g (List.filter (fun y => Q (g y)) k).
Proof.
  revert k. induction l as [|x l IH]; intros [|y k] Heq; try discriminate;
    [done|].
  simpl in Heq. injection Heq as Hxy Hrest. simpl. rewrite Hxy.
  destruct (Q (g y)); simpl; [rewrite Hxy; f_equal|]; by apply IH.
Qed.

(** X14. On a net with unique node ids in which every edge into a
    transition starts at a place, the panel's [localAnalyze], run on
    [toNet()] and [getMarking()], lists the same enabled transitions, in
    the same order, as the editor's [computeEnabled]. *)
Theorem localAnalyze_agrees_computeEnabled (ns : list Node) (es : list Edge)
  (net : Net) :
  NoDup (map n_id ns) →
  toNet ns es = Some net →
  (∀ e, e ∈ es →
        target e ∈ map n_id (List.filter (fun n => isT (Some n)) ns) →
        source e ∈ map n_id (List.filter (fun n => isP (Some n)) ns)) →
  shown_enabled (localAnalyze net (Some (getMarking ns))) = computeEnabled ns es.
Proof.
  intros Hnd Hnet Hwf.
  destruct (toNet_Some_inv ns es net Hnet)
    as (Hps & Hts & g & Harcs & Hg).
  unfold localAnalyze, computeEnabled. cbv zeta. simpl.
  rewrite Hps, Hts, Harcs.
  set (P := list_to_set _ : gset string).
  set (T := list_to_set _ : gset string).
  set (nodeById := fromEntries (map (fun n => (n_id n, n_type n)) ns)).
  change (fromEntries (map (fun p => (n_id p, node_tokens p))
            (List.filter (fun n => String.eqb (n_type n) "place") ns)))
    with (getMarking ns).
  set (m := getMarking ns).
  pose proof (fun Q => map_filter_by_key t_id n_id Q _ _ Hts) as Htr.
  rewrite (Htr (fun k => forallb (arcSatisfied m)
                           (default [] (indexNetArcs P T (imap g es) !! k)))).
  apply map_filter_ext_in. intros tr Htr'.
  rewrite indexNetArcs_lookup, indexInArcs_lookup.
  assert (n_id tr ∈ map n_id (List.filter (fun n => isT (Some n)) ns))
    as HtrT by (apply list_elem_of_In, in_map; by apply list_elem_of_In).
  apply forallb_filter_imap.
  - intros i e He. destruct (Hg i e) as (-> & -> & _).
    apply bool_decide_ext. split.
    + intros (Hd & _ & _). split; [done|].
      by apply nodeById_transition_iff.
    + intros (Hd & _). split_and!; [done| |].
      * subst T. by apply elem_of_list_to_set.
      * subst P. apply elem_of_list_to_set, Hwf; [done|]. by rewrite Hd.
  - intros i e He. destruct (Hg i e) as (Hs & _ & Hw).
    unfold arcSatisfied. by rewrite Hs, Hw.
Qed.

Lemma localAnalyze_agrees_computeEnabled_witness :
  shown_enabled (localAnalyze demoNet (Some (getMarking demoNodes))) = ["T1"].
Proof.
  rewrite (localAnalyze_agrees_computeEnabled demoNodes demoEdges demoNet).
  - vm_compute. reflexivity.
  - apply (bool_decide_unpack _). vm_compute. reflexivity.
  - vm_compute. reflexivity.
  - intros e He. simpl in He.
    apply elem_of_cons in He as [->|He];
      [|apply list_elem_of_singleton in He as ->]; simpl.
    + intros _. apply list_elem_of_here.
    + intros Hin. exfalso.
      apply list_elem_of_singleton in Hin. discriminate.
Defined.

(** X15. Where the two analyses part: with unique node ids, an edge of
    positive weight into a transition from an id that is no place keeps
    [computeEnabled] from listing that transition, whatever the marking,
    while [localAnalyze] leaves such an arc out of its index. *)
Theorem edge_from_non_place_disables (ns : list Node) (es : list Edge)
  (e : Edge) (tr : Node) :
  NoDup (map n_id ns) →
  tr ∈ ns → n_type tr = "transition" →
  e ∈ es → target e = n_id tr → 0 < edge_weight e →
  source e ∉ map n_id (List.filter (fun n => isP (Some n)) ns) →
  n_id tr ∉ computeEnabled ns es.
Proof.
  intros Hnd Htr Hty He Htgt Hw Hsrc Hin.
  apply computeEnabled_EnabledIn in Hin as [_ Hall]; [|done].
  specialize (Hall e He Htgt).
  change (getMarking ns) with (collectTokensFromNodes ns) in Hall.
  rewrite collectTokens_other in Hall; [lia|].
  intros p Hp Hpty Hid. apply Hsrc, place_id_iff. by exists p.
Qed.

Lemma edge_from_non_place_disables_witness :
  "T1" ∉ computeEnabled demoNodes
           ({| e_id := "A9"; source := "T1"; target := "T1";
               e_data := None |} :: demoEdges).
Proof.
  apply (edge_from_non_place_disables demoNodes _
           {| e_id := "A9"; source := "T1"; target := "T1"; e_data := None |}
           {| n_id := "T1"; n_type := "transition";
              n_data := Some {| label := Some "T1"; tokens := None;
                                weight := None |} |}).
  - apply (bool_decide_unpack _). vm_compute. reflexivity.
  - do 2 apply list_elem_of_further. apply list_elem_of_here.
  - reflexivity.
  - apply list_elem_of_here.
  - reflexivity.
  - reflexivity.
  - simpl. intros Hin. apply elem_of_cons in Hin as [|Hin]; [discriminate|].
    apply list_elem_of_singleton in Hin. discriminate.
Defined.

(** ** Counters and fresh ids *)










(** ** Importing a net *)

Lemma fromNet_node_ids net st :
  map n_id (nodes (fromNet net st))
  = map p_id (places net) ++ map t_id (transitions net).
Proof. simpl. by rewrite map_app, !map_map. Qed.

Lemma nodes_set_error msg st : nodes (set_error msg st) = nodes st.
Proof. reflexivity. Qed.

Lemma edges_set_error msg st : edges (set_error msg st) = edges st.
Proof. reflexivity. Qed.

(** X18. The import after parsing.  If some arc names a source or a target
    that is neither a place nor a transition of the file, nothing is
    loaded: nodes, edges, history, cursor and auto-run stay, and only the
    error message is set.  If every arc resolves, the net is loaded as by
    [fromNet], auto-run is off, the error is cleared, the history is empty
    and no edge of the new state dangles. *)
Theorem importParsed_checks_references (net : Net) (st : AppState) :
  let ids := map p_id (places net) ++ map t_id (transitions net) in
  let st' := importParsed net st in
  ((∃ a, a ∈ arcs net ∧ (src a ∉ ids ∨ dst a ∉ ids)) →
   nodes st' = nodes st ∧ edges st' = edges st ∧
   history st' = history st ∧ hIndex st' = hIndex st ∧
   autoRun st' = autoRun st ∧ error st' ≠ "") ∧
  ((∀ a, a ∈ arcs net → src a ∈ ids ∧ dst a ∈ ids) →
   nodes st' = nodes (fromNet net st) ∧ edges st' = edges (fromNet net st) ∧
   Resolved st' ∧ history st' = [] ∧ hIndex st' = -1 ∧
   autoRun st' = false ∧ error st' = "").
Proof.
  intros ids st'. subst st'. unfold importParsed.
  set (bad := fun arc : Arc =>
         negb (bool_decide (src arc ∈ (list_to_set ids : gset string)))
         || negb (bool_decide (dst arc ∈ (list_to_set ids : gset string)))).
  assert (∀ a, bad a = true ↔ src a ∉ ids ∨ dst a ∉ ids) as Hbad.
  { intros a. subst bad. cbv beta.
    rewrite orb_true_iff, !negb_true_iff, !bool_decide_eq_false.
    by rewrite !elem_of_list_to_set. }
  change (List.find _ (arcs net)) with (List.find bad (arcs net)).
  destruct (List.find bad (arcs net)) as [arc|] eqn:Ef.
  - split; [intros _; split_and!; done|].
    intros Hall. apply find_some in Ef as [Hin Hb].
    apply Hbad in Hb. apply list_elem_of_In in Hin.
    destruct (Hall arc Hin) as [? ?]. by destruct Hb.
  - split.
    + intros (a & Ha & Hb). apply list_elem_of_In in Ha.
      apply (find_none _ _ Ef) in Ha. apply Hbad in Hb. congruence.
    + intros Hall. split_and!; try done.
      intros e He. rewrite nodes_set_error. rewrite edges_set_error in He.
      rewrite fromNet_node_ids. fold ids.
      simpl in He. apply list_elem_of_In, in_map_iff in He as (a & <- & Ha).
      simpl. by apply Hall, list_elem_of_In.
Qed.

Lemma importParsed_checks_references_witness :
  nodes (importParsed danglingNet recordedState) = nodes recordedState ∧
  history (importParsed danglingNet recordedState) = history recordedState ∧
  Resolved (importParsed demoNet recordedState).
Proof.
  destruct (importParsed_checks_references danglingNet recordedState)
    as [Hrej _].
  destruct (importParsed_checks_references demoNet recordedState)
    as [_ Hacc].
  split_and!.
  - apply Hrej. eexists. split; [apply list_elem_of_here|]. left. simpl.
    intros Hin. apply elem_of_cons in Hin as [|Hin]; [discriminate|].
    apply list_elem_of_singleton in Hin. discriminate.
  - apply Hrej. eexists. split; [apply list_elem_of_here|]. left. simpl.
    intros Hin. apply elem_of_cons in Hin as [|Hin]; [discriminate|].
    apply list_elem_of_singleton in Hin. discriminate.
  - apply Hacc. intros a Ha. simpl in Ha.
    apply elem_of_cons in Ha as [->|Ha];
      [|apply list_elem_of_singleton in Ha as ->]; simpl;
      split; in_list.
Defined.

(** ** More on the per-place verdicts *)

(** X19. The verdict for a place moves one way as the threshold grows: for
    finite [k1 <= k2] and the same analysis result, a [Yes] at [k1] is a
    [Yes] at [k2], an [Unknown] at [k1] is an [Unknown] at [k2], and a [No]
    at [k2] is a [No] at [k1]. *)
Theorem verdict_monotone_in_k (hit : bool) (p : string) (maxSeen k1 k2 : Q) :
  (k1 <= k2)%Q →
  let v1 := verdict (placeVerdict (Js.Num k1) hit (p, maxSeen)) in
  let v2 := verdict (placeVerdict (Js.Num k2) hit (p, maxSeen)) in
  (v1 = Yes → v2 = Yes) ∧ (v1 = Unknown → v2 = Unknown) ∧ (v2 = No → v1 = No).
Proof.
  intros Hk v1 v2. subst v1 v2. unfold placeVerdict. simpl.
  destruct (Qle_bool maxSeen k1) eqn:E1.
  - apply Qle_bool_iff in E1.
    assert (Qle_bool maxSeen k2 = true) as ->
      by (apply Qle_bool_iff; by eapply Qle_trans).
    by destruct hit.
  - destruct hit; simpl; split_and!; try done;
      by destruct (Qle_bool maxSeen k2).
Qed.

Lemma verdict_monotone_in_k_witness :
  verdict (placeVerdict (Js.Num (1 # 1)) true ("P1", 2 # 1)) = No.
Proof.
  apply (proj2 (proj2 (verdict_monotone_in_k true "P1" (2 # 1) (1 # 1) (3 # 2)
                         ltac:(vm_compute; discriminate)))).
  reflexivity.
Defined.

(** X20. What the limit flag changes and what it does not: for every
    threshold and every observed maximum, the verdict is [No] with the
    flag set exactly when it is [No] without it, it is [Unknown] with the
    flag exactly when it is [Yes] without it, and a dash in one case is a
    dash in the other. *)
Theorem hit_limits_only_weakens_yes (k : Js.num) (p : string) (maxSeen : Q) :
  let cut := verdict (placeVerdict k true (p, maxSeen)) in
  let full := verdict (placeVerdict k false (p, maxSeen)) in
  (cut = No ↔ full = No) ∧ (cut = Unknown ↔ full = Yes) ∧
  (cut = Dash ↔ full = Dash) ∧ cut ≠ Yes ∧ full ≠ Unknown.
Proof.
  intros cut full. subst cut full. unfold placeVerdict.
  destruct k as [kq| | |]; simpl; try (split_and!; done).
  destruct (Qle_bool maxSeen kq); simpl; split_and!; done.
Qed.

(** X21. The verdict table has one row per entry of [place_max], in the
    same order, and none before an analysis has run.  Its rows are all
    dashes exactly when the request built by [runKBounded] from the same
    input carries no [k]. *)
Theorem verdict_rows_follow_request (r : KResult) (k : Js.num) :
  placeVerdicts None k = [] ∧
  map pid (placeVerdicts (Some r) k) = map fst (place_max r) ∧
  (requestK k = None →
   ∀ pv, pv ∈ placeVerdicts (Some r) k → verdict pv = Dash) ∧
  (requestK k ≠ None →
   ∀ pv, pv ∈ placeVerdicts (Some r) k → verdict pv ≠ Dash).
Proof.
  split_and!.
  - done.
  - simpl. rewrite map_map. apply map_ext. intros [p mx].
    apply pid_placeVerdict.
  - intros Hk pv Hpv. apply placeVerdicts_row in Hpv as (mx & _ & ->).
    unfold requestK in Hk. unfold placeVerdict.
    by destruct (Js.isFinite k).
  - intros Hk pv Hpv. apply placeVerdicts_row in Hpv as (mx & _ & ->).
    unfold requestK in Hk. unfold placeVerdict.
    destruct k as [kq| | |]; simpl in *; try done.
    by destruct (hit_limits r), (Qle_bool mx kq).
Qed.

Lemma verdict_rows_follow_request_witness :
  verdict (placeVerdict Js.NaN true ("P1", 2 # 1)) = Dash.
Proof.
  apply (proj1 (proj2 (proj2 (verdict_rows_follow_request
                                (demoResult true) Js.NaN))) eq_refl).
  simpl. apply list_elem_of_here.
Defined.

(** ** The token total of the panel *)

Lemma totalTokens_insert m k v :
  m !! k = None → totalTokens (<[k := v]> m) = totalTokens m + v.
Proof.
  intros Hk. unfold totalTokens.
  rewrite map_fold_insert_L; [done| |done]. intros. lia.
Qed.

Lemma totalTokens_fromEntries (l : list (string * Z)) :
  NoDup (map fst l) →
  totalTokens (fromEntries l) = foldr Z.add 0 (map snd l).
Proof.
  induction l as [|[k v] l IH] using rev_ind; intros Hnd.
  - reflexivity.
  - rewrite map_app in Hnd. simpl in Hnd.
    apply NoDup_app in Hnd as (Hl & Hdisj & _).
    rewrite fromEntries_snoc, totalTokens_insert.
    + rewrite IH by done. rewrite map_app, foldr_app. simpl.
      generalize (map snd l). intros vs. induction vs as [|x vs IHvs]; simpl;
        lia.
    + apply fromEntries_lookup_None. intros Hin.
      apply (Hdisj k); [by apply list_elem_of_In|apply list_elem_of_here].
Qed.

(** X22. With unique node ids, the total shown by the panel for the
    marking of the canvas is the sum of the tokens of the place nodes;
    nodes that are no places do not count. *)
Theorem totalTokens_is_sum_of_places (ns : list Node) (net : Net) :
  NoDup (map n_id ns) →
  totalTokens (serverMarking (localAnalyze net (Some (getMarking ns))))
  = foldr Z.add 0
      (map node_tokens (List.filter (fun n => isP (Some n)) ns)).
Proof.
  intros Hnd. simpl. unfold getMarking.
  rewrite totalTokens_fromEntries.
  - by rewrite map_map.
  - rewrite map_map. simpl. by apply NoDup_map_filter.
Qed.

Lemma totalTokens_is_sum_of_places_witness :
  totalTokens (serverMarking (localAnalyze demoNet (Some (getMarking demoNodes))))
  = 1.
Proof.
  rewrite (totalTokens_is_sum_of_places demoNodes demoNet).
  - reflexivity.
  - apply (bool_decide_unpack _). vm_compute. reflexivity.
Defined.

(** ** What a place shows *)

Lemma toInt32_small t : - 2 ^ 31 <= t < 2 ^ 31 → toInt32 t = t.
Proof. intros Ht. unfold toInt32. rewrite Z.mod_small; lia. Qed.

(** X23. [PlaceNode] renders exactly one of its three token displays: the
    word for an empty place when the token count is zero, missing or
    negative, one dot per token for 1 to 6 tokens, and the number above
    6. *)
Theorem placeNode_shows_one_part (dataTokens : option Z) :
  let t := default 0 dataTokens in
  length (placeNodeParts dataTokens) = 1%nat ∧
  (t <= 0 → placeNodeParts dataTokens = [EmptyLabel]) ∧
  (1 <= t <= 6 → placeNodeParts dataTokens = [DotRow (Z.to_nat t)]) ∧
  (6 < t → placeNodeParts dataTokens = [CountLabel t]).
Proof.
  intros t. unfold placeNodeParts, DOT_LIMIT. fold t.
  destruct (Z.max 0 t =? 0) eqn:E0, (0 <? Z.max 0 t) eqn:E1,
           (Z.max 0 t <=? 6) eqn:E2, (6 <? Z.max 0 t) eqn:E3;
    simpl; try lia; split_and!; try done; try (intros; lia).
  - intros H. do 2 f_equal. lia.
  - intros H. do 2 f_equal. lia.
Qed.

Lemma placeNode_shows_one_part_witness :
  placeNodeParts (Some 3) = [DotRow 3] ∧ placeNodeParts None = [EmptyLabel].
Proof.
  split.
  - apply (proj1 (proj2 (proj2 (placeNode_shows_one_part (Some 3))))).
    simpl. lia.
  - apply (proj1 (proj2 (placeNode_shows_one_part None))). simpl. lia.
Defined.

(** X24. For a token count in the signed 32-bit range, the TikZ export
    draws what the canvas shows: nothing for a count of zero or less, as
    many dots as tokens for 1 to 6, and the number above 6.  Outside
    that range the export works on the count wrapped to 32 bits. *)
Theorem tikz_tokens_match_canvas (t : Z) :
  (- 2 ^ 31 <= t < 2 ^ 31 →
   (t <= 0 → tikzTokens t = NoTokens ∧
             placeNodeParts (Some t) = [EmptyLabel]) ∧
   (1 <= t <= 6 →
    ∃ offsets, tikzTokens t = TokenDots offsets ∧
               length offsets = Z.to_nat t ∧
               placeNodeParts (Some t) = [DotRow (Z.to_nat t)]) ∧
   (6 < t → tikzTokens t = TokenCount t ∧
            placeNodeParts (Some t) = [CountLabel t])) ∧
  tikzTokens (t + 2 ^ 32) = tikzTokens t.
Proof.
  split.
  - intros Ht. pose proof (placeNode_shows_one_part (Some t))
      as (_ & Hempty & Hdots & Hcount). simpl in Hempty, Hdots, Hcount.
    unfold tikzTokens. rewrite toInt32_small by done. split_and!.
    + intros H. split; [|by apply Hempty].
      by replace (Z.max 0 t) with 0 by lia.
    + intros H. exists (tokenOffsets t). split_and!; [| |by apply Hdots].
      * replace (Z.max 0 t) with t by lia.
        destruct (t =? 0) eqn:E0; [lia|].
        destruct (t <=? 6) eqn:E6; [|lia].
        unfold tokenOffsets. rewrite toInt32_small by done.
        by replace (Z.max 0 t) with t by lia.
      * unfold tokenOffsets. rewrite toInt32_small by done.
        replace (Z.max 0 t) with t by lia.
        assert (t = 1 ∨ t = 2 ∨ t = 3 ∨ t = 4 ∨ t = 5 ∨ t = 6) as Hc by lia.
        repeat (destruct Hc as [->|Hc]; [reflexivity|]). by subst.
    + intros H. split; [|by apply Hcount].
      replace (Z.max 0 t) with t by lia.
      destruct (t =? 0) eqn:E0; [lia|].
      destruct (t <=? 6) eqn:E6; [lia|done].
  - unfold tikzTokens, tokenOffsets, toInt32.
    replace (t + 2 ^ 32 + 2 ^ 31) with (t + 2 ^ 31 + 1 * 2 ^ 32) by lia.
    by rewrite Z.mod_add by lia.
Qed.

Lemma tikz_tokens_match_canvas_witness :
  tikzTokens 9 = TokenCount 9 ∧ placeNodeParts (Some 9) = [CountLabel 9].
Proof.
  apply (proj1 (tikz_tokens_match_canvas 9)); lia.
Defined.

(** ** Escaping *)

Lemma escChar_cases c :
  (c = "&"%char ∧ escChar c = "&amp;") ∨
  (c = "<"%char ∧ escChar c = "&lt;") ∨
  (c = ">"%char ∧ escChar c = "&gt;") ∨
  (c = dquote ∧ escChar c = "&quot;") ∨
  (c = "'"%char ∧ escChar c = "&apos;") ∨
  (c ≠ "&"%char ∧ c ≠ "<"%char ∧ c ≠ ">"%char ∧ c ≠ dquote ∧ c ≠ "'"%char ∧
   escChar c = String c EmptyString).
Proof.
  unfold escChar.
  destruct (Ascii.eqb c "&") eqn:E1;
    [apply Ascii.eqb_eq in E1; by left|apply Ascii.eqb_neq in E1].
  destruct (Ascii.eqb c "<") eqn:E2;
    [apply Ascii.eqb_eq in E2; right; by left|apply Ascii.eqb_neq in E2].
  destruct (Ascii.eqb c ">") eqn:E3;
    [apply Ascii.eqb_eq in E3; do 2 right; by left|apply Ascii.eqb_neq in E3].
  destruct (Ascii.eqb c dquote) eqn:E4;
    [apply Ascii.eqb_eq in E4; do 3 right; by left|apply Ascii.eqb_neq in E4].
  destruct (Ascii.eqb c "'") eqn:E5;
    [apply Ascii.eqb_eq in E5; do 4 right; by left|apply Ascii.eqb_neq in E5].
  do 5 right. done.
Qed.

(** X25. [esc] loses nothing: two strings with the same escaped form are
    the same string, so distinct ids and labels stay distinct in the
    exported PNML. *)
Theorem esc_injective (s1 s2 : string) : esc s1 = esc s2 → s1 = s2.
Proof.
  revert s2. induction s1 as [|c1 s1 IH]; intros [|c2 s2]; simpl.
  - done.
  - intros H. exfalso.
    destruct (escChar_cases c2) as [[_ E]|[[_ E]|[[_ E]|[[_ E]|[[_ E]|H6]]]]];
      try (rewrite E in H; discriminate).
    destruct H6 as (_ & _ & _ & _ & _ & E). rewrite E in H. discriminate.
  - intros H. exfalso.
    destruct (escChar_cases c1) as [[_ E]|[[_ E]|[[_ E]|[[_ E]|[[_ E]|H6]]]]];
      try (rewrite E in H; discriminate).
    destruct H6 as (_ & _ & _ & _ & _ & E). rewrite E in H. discriminate.
  - intros H.
    destruct (escChar_cases c1)
      as [[C1 E1]|[[C1 E1]|[[C1 E1]|[[C1 E1]|[[C1 E1]|H1]]]]];
    destruct (escChar_cases c2)
      as [[C2 E2]|[[C2 E2]|[[C2 E2]|[[C2 E2]|[[C2 E2]|H2]]]]];
    try destruct H1 as (N1 & N2 & N3 & N4 & N5 & E1);
    try destruct H2 as (M1 & M2 & M3 & M4 & M5 & E2);
    rewrite E1, E2 in H; simpl in H;
    try discriminate H;
    try (injection H as H; subst; f_equal; by apply IH);
    try (injection H as Hc H; subst; congruence).
Qed.

Lemma esc_injective_witness : esc "a<b" = "a&lt;b" ∧ "a<b" = "a<b".
Proof.
  split; [reflexivity|]. apply (esc_injective "a<b" "a<b"). reflexivity.
Defined.

(** Membership of a character in a string. *)
Lemma esc_chars c s :
  c ∈ String.list_ascii_of_string (esc s) →
  c ≠ "<"%char ∧ c ≠ ">"%char ∧ c ≠ dquote ∧ c ≠ "'"%char.
Proof.
  induction s as [|a s IH]; simpl.
  - intros H. by apply elem_of_nil in H.
  - intros H.
    assert (∀ x y, String.list_ascii_of_string (x +:+ y)
                   = String.list_ascii_of_string x ++ String.list_ascii_of_string y) as Happ.
    { intros x y. induction x as [|b x IHx]; simpl; [done|]. by rewrite IHx. }
    rewrite Happ in H. apply elem_of_app in H as [H|H]; [|by apply IH].
    destruct (escChar_cases a)
      as [[_ E]|[[_ E]|[[_ E]|[[_ E]|[[_ E]|H6]]]]];
      try (rewrite E in H; simpl in H;
           repeat (apply elem_of_cons in H as [->|H]; [by vm_compute|]);
           by apply elem_of_nil in H).
    destruct H6 as (_ & ? & ? & ? & ? & E). rewrite E in H. simpl in H.
    apply list_elem_of_singleton in H as ->. done.
Qed.

(** X26. The escaped form contains no angle bracket, no double quote and
    no apostrophe, and a string without any of the five special characters
    is left as it is. *)
Theorem esc_output_is_clean (s : string) :
  (∀ c, c ∈ String.list_ascii_of_string (esc s) →
        c ≠ "<"%char ∧ c ≠ ">"%char ∧ c ≠ dquote ∧ c ≠ "'"%char) ∧
  ((∀ c, c ∈ String.list_ascii_of_string s →
         c ≠ "&"%char ∧ c ≠ "<"%char ∧ c ≠ ">"%char ∧ c ≠ dquote
         ∧ c ≠ "'"%char) →
   esc s = s).
Proof.
  split; [intros c; apply esc_chars|].
  induction s as [|a s IH]; simpl; [done|]. intros Hs.
  destruct (Hs a (list_elem_of_here _ _)) as (N1 & N2 & N3 & N4 & N5).
  destruct (escChar_cases a)
    as [[? _]|[[? _]|[[? _]|[[? _]|[[? _]|H6]]]]]; try done.
  destruct H6 as (_ & _ & _ & _ & _ & ->). simpl. f_equal.
  apply IH. intros c Hc. by apply Hs, list_elem_of_further.
Qed.

Lemma esc_output_is_clean_witness : esc "P1" = "P1".
Proof.
  apply (proj2 (esc_output_is_clean "P1")).
  intros c Hc. simpl in Hc.
  apply elem_of_cons in Hc as [->|Hc];
    [|apply list_elem_of_singleton in Hc as ->]; by vm_compute.
Defined.

Lemma escTex_head s c rest : escTex s = String c rest → texSpecial c = false.
Proof.
  destruct s as [|a s]; simpl; [done|].
  destruct (texSpecial a) eqn:E; intros [= <- _]; done.
Qed.

(** X27. [escTex] loses nothing either: two strings with the same escaped
    form are the same string. *)
Theorem escTex_injective (s1 s2 : string) : escTex s1 = escTex s2 → s1 = s2.
Proof.
  revert s2. induction s1 as [|c1 s1 IH]; intros [|c2 s2]; simpl.
  - done.
  - by destruct (texSpecial c2).
  - by destruct (texSpecial c1).
  - destruct (texSpecial c1) eqn:E1, (texSpecial c2) eqn:E2.
    + intros [= -> H]. f_equal. by apply IH.
    + intros [= <- H]. symmetry in H. apply escTex_head in H. congruence.
    + intros [= -> H]. apply escTex_head in H. congruence.
    + intros [= -> H]. f_equal. by apply IH.
Qed.

Lemma escTex_injective_witness : escTex "a_b" = "a\_b" ∧ "a_b" = "a_b".
Proof.
  split; [reflexivity|]. apply (escTex_injective "a_b" "a_b"). reflexivity.
Defined.

(** ** Clicks on a node *)

(** X28. A click without Shift never touches the edges, the mode or the
    pending connection; it changes the state only in simulation mode, on a
    transition node that is in the enabled list, while no firing is in
    flight, and then it is the [fire] of that transition.  A click with
    Shift outside modelling mode, or on an id that names no node, changes
    nothing, and a click with Shift never changes the nodes. *)
Theorem node_click_guards (addEdge : string → string → Data → list Edge → list Edge)
  (nodeId : string) (resp : Response) (now0 now1 : Z) (ui : UiState) :
  let plain := handleNodeClick addEdge nodeId false resp now0 now1 ui in
  let shift := handleNodeClick addEdge nodeId true resp now0 now1 ui in
  mode plain = mode ui ∧ connectFrom plain = connectFrom ui ∧
  edges (app plain) = edges (app ui) ∧
  (plain ≠ ui →
   mode ui = "simulation" ∧ isFiring (app ui) = false ∧
   nodeId ∈ enabled (app ui) ∧
   (∃ n, n ∈ nodes (app ui) ∧ n_id n = nodeId ∧ n_type n = "transition") ∧
   app plain = fire nodeId resp now0 now1 (app ui)) ∧
  (mode ui ≠ "modelling" → shift = ui) ∧
  (nodeId ∉ map n_id (nodes (app ui)) → shift = ui ∧ plain = ui) ∧
  nodes (app shift) = nodes (app ui) ∧
  (edges (app shift) ≠ edges (app ui) →
   history (app shift) = [] ∧ connectFrom shift = None).
Proof.
  intros plain shift. subst plain shift. unfold handleNodeClick.
  destruct (List.find _ (nodes (app ui))) as [node|] eqn:En.
  - apply find_id_Some in En as [Hin Hid]. simpl.
    assert (nodeId ∈ map n_id (nodes (app ui))) as Hknown.
    { rewrite <- Hid. apply list_elem_of_In, in_map.
      by apply list_elem_of_In. }
    destruct (String.eqb (mode ui) "simulation") eqn:Em; simpl.
    + apply String.eqb_eq in Em.
      destruct (String.eqb (n_type node) "transition") eqn:Et; simpl.
      * apply String.eqb_eq in Et.
        destruct (isFiring (app ui)) eqn:Ef.
        { rewrite Em. simpl. split_and!; try done; try by destruct ui. }
        destruct (bool_decide (n_id node ∈ enabled (app ui))) eqn:Ee; simpl.
        { apply bool_decide_eq_true_1 in Ee. rewrite Em. simpl.
          split_and!; try done.
          - apply fire_edges.
          - intros _. split_and!; [done|done|by rewrite <- Hid| |by rewrite Hid].
            by exists node. }
        rewrite Em. simpl. split_and!; try done; try by destruct ui.
      * rewrite Em. simpl. split_and!; try done; try by destruct ui.
    + destruct (String.eqb (mode ui) "modelling") eqn:Emod; simpl.
      * apply String.eqb_eq in Emod. split_and!; try done.
        all: destruct (pendingSource ui) as [from|]; [|done].
        all: destruct (String.eqb from nodeId); [done|].
        all: by destruct (negb _).
      * split_and!; try done.
  - assert (nodeId ∉ map n_id (nodes (app ui)) ∨ True) as _ by (by right).
    split_and!; done.
Qed.

Lemma node_click_guards_witness :
  let ui := {| app := freshState; mode := "simulation"; connectFrom := None |} in
  handleNodeClick plainAddEdge "T1" true demoFired 1000 1400 ui = ui.
Proof.
  intros ui.
  apply (proj1 (proj2 (proj2 (proj2 (proj2
           (node_click_guards plainAddEdge "T1" demoFired 1000 1400 ui)))))).
  simpl. discriminate.
Defined.

(** ** Adding a node and the enabled set *)

Lemma collectTokens_snoc_zero ns new x :
  n_id new ∉ map n_id ns → node_tokens new = 0 →
  tokensAt (collectTokensFromNodes (ns ++ [new])) x
  = tokensAt (collectTokensFromNodes ns) x.
Proof.
  intros Hfresh Hzero. unfold tokensAt, collectTokensFromNodes.
  rewrite List.filter_app, map_app. simpl.
  destruct (String.eqb (n_type new) "place"); simpl;
    [|by rewrite app_nil_r].
  rewrite fromEntries_snoc, Hzero.
  destruct (decide (n_id new = x)) as [<-|Hne].
  - rewrite lookup_insert_eq, fromEntries_lookup_None; [done|].
    rewrite map_map. simpl. intros Hin. apply Hfresh.
    apply list_elem_of_In. apply in_map_iff in Hin as (n & <- & Hn).
    apply in_map. by apply filter_In in Hn as [Hn _].
  - by rewrite lookup_insert_ne.
Qed.

(** The enabled list after one more node with a fresh id and no tokens:
    the old list, followed by the new node if it is a transition whose
    incoming edges are satisfied. *)
Lemma computeEnabled_snoc ns es new :
  n_id new ∉ map n_id ns → node_tokens new = 0 →
  computeEnabled (ns ++ [new]) es
  = computeEnabled ns es
    ++ (if String.eqb (n_type new) "transition"
        then if forallb
                  (fun a => default 0 (collectTokensFromNodes ns !! source a)
                            >=? edge_weight a)
                  (List.filter (fun e => bool_decide (target e = n_id new)) es)
             then [n_id new] else []
        else []).
Proof.
  intros Hfresh Hzero.
  rewrite !computeEnabled_enabledAtTokens.
  rewrite (enabledAtTokens_ext _ _ _ (collectTokensFromNodes ns))
    by (intros p; by apply collectTokens_snoc_zero).
  set (m := collectTokensFromNodes ns).
  unfold enabledAtTokens. cbv zeta.
  rewrite map_app. simpl. rewrite fromEntries_snoc.
  set (nodeById := fromEntries (map (fun n => (n_id n, n_type n)) ns)).
  rewrite !List.filter_app, map_app. f_equal.
  - apply map_filter_ext_in. intros tr Htr.
    apply elem_of_List_filter in Htr as [Htr _].
    assert (n_id new ≠ n_id tr) as Hne.
    { intros Heq. apply Hfresh. rewrite Heq.
      apply list_elem_of_In, in_map. by apply list_elem_of_In. }
    rewrite !indexInArcs_lookup. f_equal. apply List.filter_ext.
    intros e. by rewrite lookup_insert_ne.
  - simpl. destruct (String.eqb (n_type new) "transition") eqn:Ety;
      [|done]. apply String.eqb_eq in Ety. simpl.
    rewrite indexInArcs_lookup.
    assert (List.filter
              (fun e => bool_decide
                 (target e = n_id new ∧
                  <[n_id new := n_type new]> nodeById !! n_id new
                  = Some "transition")) es
            = List.filter (fun e => bool_decide (target e = n_id new)) es)
      as ->.
    { apply List.filter_ext. intros e. apply bool_decide_ext.
      rewrite lookup_insert_eq, Ety. tauto. }
    by destruct (forallb _ _).
Qed.

Lemma filter_target_none (es : list Edge) k :
  (∀ e, e ∈ es → target e ≠ k) →
  List.filter (fun e => bool_decide (target e = k)) es = [].
Proof.
  induction es as [|e es IH]; intros H; [done|]. simpl.
  rewrite bool_decide_eq_false_2 by apply H, list_elem_of_here.
  apply IH. intros e' He'. by apply H, list_elem_of_further.
Qed.

(** X29. Adding nodes and the enabled set, when the id made from the
    counter is not yet the id of a node.  A new place changes nothing in
    what [computeEnabled] returns.  A new transition, in a state without
    dangling edges, is returned as enabled, after the transitions that
    were enabled before. *)
Theorem adding_nodes_and_enabled (st : AppState) :
  ("P" +:+ pretty (placeCounter st) ∉ map n_id (nodes st) →
   computeEnabled (nodes (addPlace st)) (edges (addPlace st))
   = computeEnabled (nodes st) (edges st)) ∧
  ("T" +:+ pretty (transCounter st) ∉ map n_id (nodes st) → Resolved st →
   computeEnabled (nodes (addTransition st)) (edges (addTransition st))
   = computeEnabled (nodes st) (edges st)
     ++ ["T" +:+ pretty (transCounter st)]).
Proof.
  split.
  - intros Hfresh. unfold addPlace. cbn [nodes edges clearHistory set_hIndex
      set_history set_nodes set_placeCounter].
    rewrite computeEnabled_snoc by done. simpl. by rewrite app_nil_r.
  - intros Hfresh Hres. unfold addTransition. cbn [nodes edges clearHistory
      set_hIndex set_history set_nodes set_transCounter].
    rewrite computeEnabled_snoc by done. cbn [n_type n_id]. simpl String.eqb.
    cbv iota.
    assert (List.filter
              (fun e => bool_decide
                 (target e = "T" +:+ pretty (transCounter st))) (edges st)
            = []) as ->; [|done].
    apply filter_target_none. intros e He Heq. apply Hfresh.
    rewrite <- Heq. by apply Hres.
Qed.

Lemma adding_nodes_and_enabled_witness :
  computeEnabled (nodes (addTransition freshState))
                 (edges (addTransition freshState)) = ["T1"; "T2"].
Proof.
  rewrite (proj2 (adding_nodes_and_enabled freshState)).
  - reflexivity.
  - simpl. intros Hin.
    repeat (apply elem_of_cons in Hin as [Hin|Hin]; [by vm_compute in Hin|]).
    by apply elem_of_nil in Hin.
  - intros e He. simpl in He.
    apply elem_of_cons in He as [->|He];
      [|apply list_elem_of_singleton in He as ->]; simpl; split; in_list.
Defined.
